(** * News aggregator: comment tree, SQL builder and HTTP handlers

    A shallow embedding of the parts of the aggregator that its
    specification makes claims about:

    - [Domain]: the gateway's [ToTree] and [dig] (comment forest assembly);
    - [Storage], [Postgres]: the filter, the statement builder
      ([addWhereClause], [addOrderBy], [addLimitOffsetClause]) and the
      pubDate decoder of the news service;
    - [NewsAPI]: [itemHandler], [parseQP], [timeQParser] of the news service;
    - [Comments]: [handleCommentCreate], [Create] and [createComment] of
      the comments service;
    - [GoLib]: reference models of the two standard library functions the
      handlers are run with.

    Go's [int64]/[int] values are [Z]; where the code does arithmetic on
    them the two's complement wrap-around is written out.  Go slices that
    are indexed through pointers are lists with positions as pointers. *)

From Stdlib Require Import Ascii String.
From stdpp Require Import gmap strings list pretty.

Open Scope Z_scope.

(** Left-to-right iteration of a fallible loop body. *)
Fixpoint foldM {A B : Type} (f : B → A → option B) (b : B) (l : list A)
  : option B :=
  match l with
  | [] => Some b
  | a :: l' => match f b a with
               | Some b' => foldM f b' l'
               | None => None
               end
  end.

(** ** The gateway's domain package: [ToTree] *)
Module Domain.

(** [type Comment struct] of the gateway. *)
#[warnings="-register-all"]
Inductive Comment : Type := mkComment {
  Id : Z;
  Author : string;
  Text : string;
  PostedAt : Z;
  ReplyID : Z;
  Replies : list Comment
}.

(** [c.Replies = append(c.Replies, child)].  The appended value is a copy
    of the child struct; nothing ever appends to the [Replies] of such a
    copy (pointers in the map only point into the input slice), so a
    snapshot by value is what later readers of the copy observe. *)
Definition appendReply (c child : Comment) : Comment :=
  mkComment (Id c) (Author c) (Text c) (PostedAt c) (ReplyID c)
            (Replies c ++ [child]).

(** [m[id]] for [m : map[int64][]*Comment]; a missing key reads as the nil
    slice.  A pointer [&comments[i]] is the position [i]. *)
Definition refs (m : gmap Z (list nat)) (id : Z) : list nat :=
  default [] (m !! id).

(** Body of the first loop of [ToTree], at position [i]. *)
Definition index_step (st : gmap Z (list nat) * nat) (ic : nat * Comment)
  : gmap Z (list nat) * nat :=
  let '(m, tops) := st in
  let '(i, c) := ic in
  if decide (ReplyID c = 0) then
    (match m !! Id c with
     | Some _ => m
     | None => <[Id c := []]> m
     end, S tops)
  else (<[ReplyID c := refs m (ReplyID c) ++ [i]]> m, tops).

(** The first loop: the map of child pointers and the count of roots. *)
Definition index_pass (comments : list Comment) : gmap Z (list nat) * nat :=
  foldl index_step (∅, 0%nat) (imap pair comments).

(** One iteration of [for _, v := range m[c.Id] { c.Replies =
    append(c.Replies, *dig(v, m)) }], where [c] points at position [i] and
    [digf] is the recursive call.  [dig] returns its argument pointer, so
    [*dig(v, m)] is the element at [v] after the call.  Go leaves open
    whether [c.Replies] is read before or after the call; here it is read
    after.  The two agree whenever the call returns: a call that reached
    position [i] again would repeat itself without end, the map being
    unchanged during the descent. *)
Definition attach (digf : nat → list Comment → option (list Comment))
    (i : nat) (cs : list Comment) (v : nat) : option (list Comment) :=
  cs' ← digf v cs;
  child ← cs' !! v;
  parent ← cs' !! i;
  Some (<[i := appendReply parent child]> cs').

(** [dig(c, m)] on the slice [cs], with [c = &cs[i]]; the result is the
    slice after the call.  [fuel] bounds the depth of the recursion, which
    the source does not bound: [None] stands for a call tree deeper than
    [fuel]. *)
Fixpoint dig (fuel : nat) (m : gmap Z (list nat)) (i : nat)
    (cs : list Comment) : option (list Comment) :=
  match fuel with
  | O => None
  | S fuel' =>
      c ← cs !! i;
      match refs m (Id c) with
      | [] => Some cs
      | vs => foldM (attach (dig fuel' m) i) cs vs
      end
  end.

(** Body of the second loop of [ToTree], at position [i]. *)
Definition inline_step (fuel : nat) (st : gmap Z (list nat) * list Comment)
    (i : nat) : option (gmap Z (list nat) * list Comment) :=
  let '(m, cs) := st in
  c ← cs !! i;
  match refs m (Id c) with
  | [] => Some (m, cs)
  | vs =>
      cs' ← foldM (attach (dig fuel m) i) cs vs;
      Some (<[Id c := []]> m, cs')
  end.

(** The third loop: the roots, in input order. *)
Definition roots (cs : list Comment) : list Comment :=
  filter (λ c, ReplyID c = 0) cs.

(** [ToTree(comments)]; [None] when some [dig] call tree is deeper than
    [fuel]. *)
Definition ToTree (fuel : nat) (comments : list Comment)
  : option (list Comment) :=
  let '(m, _) := index_pass comments in
  st ← foldM (inline_step fuel) (m, comments) (seq 0 (length comments));
  Some (roots st.2).

(** A comment as the test table writes it: id, reply id, replies. *)
Definition node (id rid : Z) (rs : list Comment) : Comment :=
  mkComment id "" "" 0 rid rs.

(** Input of [Test_ToTree]. *)
Definition test_in : list Comment :=
  [node 4 1 []; node 5 2 []; node 6 3 []; node 1 0 []; node 2 0 [];
   node 3 0 []; node 7 4 []; node 8 5 []; node 9 6 []; node 10 0 [];
   node 11 1 []; node 12 2 []; node 13 3 []; node 14 7 []].

(** Expected value of [Test_ToTree]. *)
Definition test_want : list Comment :=
  [node 1 0 [node 4 1 [node 7 4 [node 14 7 []]]; node 11 1 []];
   node 2 0 [node 5 2 [node 8 5 []]; node 12 2 []];
   node 3 0 [node 6 3 [node 9 6 []]; node 13 3 []];
   node 10 0 []].

(** *** Notions used to state what [ToTree] computes *)

(** A comment without its replies. *)
Definition flat (c : Comment) : Comment :=
  mkComment (Id c) (Author c) (Text c) (PostedAt c) (ReplyID c) [].

(** [c] with [rs] appended to its replies. *)
Definition addReplies (c : Comment) (rs : list Comment) : Comment :=
  mkComment (Id c) (Author c) (Text c) (PostedAt c) (ReplyID c)
            (Replies c ++ rs).

#[global] Instance Comment_inhabited : Inhabited Comment :=
  populate (node 0 0 []).

(** Positions of the comments of [C] that reply to [key], in input order. *)
Definition kids (C : list Comment) (key : Z) : list nat :=
  filter (λ i, ReplyID <$> C !! i = Some key) (seq 0 (length C)).

(** The subtree a pointer [&cs[i]] stands for when the map is [m]: the
    comment with the subtrees of the pointers in [m[id]] appended, to depth
    [fuel]. *)
Fixpoint expand (fuel : nat) (m : gmap Z (list nat)) (cs : list Comment)
    (i : nat) : Comment :=
  match fuel with
  | O => cs !!! i
  | S fuel' =>
      addReplies (cs !!! i) (expand fuel' m cs <$> refs m (Id (cs !!! i)))
  end.

(** Every comment of a tree, parents before replies. *)
Fixpoint nodes (c : Comment) : list Comment :=
  c :: (Replies c ≫= nodes).

(** Every comment of a forest. *)
Definition forest_nodes (f : list Comment) : list Comment :=
  f ≫= nodes.

(** [cs] is the input [C] up to the replies filled in so far. *)
Definition same_shape (C cs : list Comment) : Prop :=
  flat <$> cs = flat <$> C.

(** Every pointer stored under [key] points at a comment of [C] replying
    to [key], and no pointer is stored twice. *)
Definition wf_refs (C : list Comment) (m : gmap Z (list nat)) : Prop :=
  ∀ key, NoDup (refs m key) ∧
    ∀ v, v ∈ refs m key → key ≠ 0 ∧ ∃ c, C !! v = Some c ∧ ReplyID c = key.

(** The comment at position [v] replies to the comment at position [j]. *)
Definition par (C : list Comment) (v j : nat) : Prop :=
  ∃ cv cj, C !! v = Some cv ∧ C !! j = Some cj ∧
           ReplyID cv ≠ 0 ∧ ReplyID cv = Id cj.

(** The reply references of [C] are acyclic: [h] ranks every reply
    strictly below the id it replies to. *)
Definition acyclic (h : Z → nat) (C : list Comment) : Prop :=
  Forall (λ c, ReplyID c ≠ 0 → (h (Id c) < h (ReplyID c))%nat) C.

(** Rank of the comment at position [i]. *)
Definition rankAt (h : Z → nat) (C : list Comment) (i : nat) : nat :=
  h (Id (C !!! i)).

(** The effect of [dig] at depth [fuel]: positions that are not below
    [k] keep their value and position [k] holds its expanded subtree. *)
Definition dig_effect (C : list Comment) (fuel : nat) : Prop :=
  ∀ m k cs cs',
    wf_refs C m → same_shape C cs → dig fuel m k cs = Some cs' →
    (∀ d, ¬ rtc (par C) d k → cs' !! d = cs !! d) ∧
    cs' !! k = Some (expand fuel m cs k).

(** The forest the specification describes: the subtrees of the root
    positions of [C], in input order. *)
Definition forest_of (fuel : nat) (C : list Comment) : list Comment :=
  expand fuel (index_pass C).1 C <$> kids C 0.

(** The comments of [C] that reply to [id], in input order; a reply id of
    zero marks a root, so nothing replies to it. *)
Definition repliesTo (C : list Comment) (id : Z) : list Comment :=
  if decide (id = 0) then [] else filter (λ c, ReplyID c = id) C.

(** A bound on the ranks of the ids of [C]. *)
Definition rank_bound (h : Z → nat) (C : list Comment) : nat :=
  max_list ((λ c, h (Id c)) <$> C).

(** A rank for the ids of [test_in]: the height of each comment. *)
Definition test_rank (id : Z) : nat :=
  match id with
  | 1 => 3
  | 2 | 3 | 4 => 2
  | 5 | 6 | 7 => 1
  | _ => 0
  end.

(** The forest the specification's scenario lists for [test_in]: comment 14
    directly under comment 4. *)
Definition scenario_forest : list Comment :=
  [node 1 0 [node 4 1 [node 14 7 []]; node 11 1 []];
   node 2 0 [node 5 2 [node 8 5 []]; node 12 2 []];
   node 3 0 [node 6 3 [node 9 6 []]; node 13 3 []];
   node 10 0 []].

(** A rank for the ids of [twin_in]. *)
Definition twin_rank (id : Z) : nat :=
  match id with
  | 5 => 2
  | 1 => 1
  | _ => 0
  end.

(** A two-element reply cycle. *)
Definition cyclic_in : list Comment := [node 1 2 []; node 2 1 []].

(** Two comments sharing an id, both with a reply. *)
Definition twin_in : list Comment :=
  [node 5 0 []; node 1 5 []; node 1 5 []; node 2 1 []].

End Domain.


(** ** Library functions the services call

    [strconv.Atoi] and [time.Parse] belong to Go's standard library, not to
    the repository.  The handlers below take them as parameters; the two
    definitions here are reference models used to run the handlers on
    concrete requests. *)
Module GoLib.

Definition is_digit (a : ascii) : bool :=
  (48 <=? Z.of_nat (nat_of_ascii a)) && (Z.of_nat (nat_of_ascii a) <=? 57).

Definition digit_val (a : ascii) : Z := Z.of_nat (nat_of_ascii a) - 48.

(** Value of a string of decimal digits, [None] on any other character. *)
Fixpoint digits (acc : Z) (s : string) : option Z :=
  match s with
  | EmptyString => Some acc
  | String a s' =>
      if is_digit a then digits (10 * acc + digit_val a) s' else None
  end.

(** [strconv.Atoi]: optional sign, at least one digit, 64-bit range. *)
Definition Atoi (s : string) : option Z :=
  let signed :=
    match s with
    | String "-" ((String _ _) as r) => Z.opp <$> digits 0 r
    | String "+" ((String _ _) as r) => digits 0 r
    | String _ _ => digits 0 s
    | EmptyString => None
    end in
  n ← signed;
  if decide (- 2 ^ 63 ≤ n < 2 ^ 63) then Some n else None.

Definition is_leap (y : Z) : bool :=
  (y `mod` 4 =? 0) && (negb (y `mod` 100 =? 0) || (y `mod` 400 =? 0)).

Definition days_in (y m : Z) : Z :=
  if m =? 2 then (if is_leap y then 29 else 28)
  else if (m =? 4) || (m =? 6) || (m =? 9) || (m =? 11) then 30 else 31.

(** Days from 1970-01-01 to the civil date [y]-[m]-[d]. *)
Definition days_from_civil (y m d : Z) : Z :=
  let y' := if m <=? 2 then y - 1 else y in
  let era := y' `div` 400 in
  let yoe := y' - era * 400 in
  let mp := (m + 9) `mod` 12 in
  let doy := (153 * mp + 2) `div` 5 + d - 1 in
  let doe := yoe * 365 + yoe `div` 4 - yoe `div` 100 + doy in
  era * 146097 + doe - 719468.

(** [time.Parse("2006-01-02", s)] as Unix seconds: four digits, a dash,
    two digits, a dash, two digits, nothing else, and a valid date. *)
Definition parseDate (s : string) : option Z :=
  match s with
  | String y1 (String y2 (String y3 (String y4 (String "-"
      (String m1 (String m2 (String "-"
        (String d1 (String d2 EmptyString))))))))) =>
      y ← digits 0 (String y1 (String y2 (String y3 (String y4 EmptyString))));
      m ← digits 0 (String m1 (String m2 EmptyString));
      d ← digits 0 (String d1 (String d2 EmptyString));
      if (1 <=? m) && (m <=? 12) && (1 <=? d) && (d <=? days_in y m)
      then Some (days_from_civil y m d * 86400) else None
  | _ => None
  end.

(** [time.Parse] for the one layout the news API uses. *)
Definition timeParse (layout value : string) : Z + string :=
  if decide (layout = "2006-01-02") then
    match parseDate value with
    | Some t => inl t
    | None => inr "parsing time: cannot parse value"
    end
  else inr "parsing time: layout not modelled".

End GoLib.

(** ** The news service's storage package *)
Module Storage.

Definition PageSize : Z := 10.

(** [type Sort int] with its four constants; [ByDate] is Go's
    [storage.Date], renamed because [Date] is a field of [Filter]. *)
Inductive Sort : Type := Empty | ByDate | Title | Rank.

#[global] Instance Sort_eq_dec : EqDecision Sort.
Proof. solve_decision. Defined.

(** [Sort.String]. *)
Definition Sort_String (i : Sort) : string :=
  match i with
  | Empty => ""
  | ByDate => "pub_date"
  | Title => "title"
  | Rank => "rank"
  end.

Record TimeFilter : Type := mkTimeFilter {
  Value : Z;
  Operator : string
}.

Record Filter : Type := mkFilter {
  Exclude : list string;
  SortBy : Sort;
  Page : Z;
  Date : TimeFilter;
  EndDate : TimeFilter;
  TitleSearch : list string
}.

Record Item : Type := mkItem {
  Id : Z;
  Title_ : string;
  PubDate : Z;
  Description : string;
  Link : string
}.

(** The zero value [Item{}]. *)
Definition zeroItem : Item := mkItem 0 "" 0 "" "".

#[global] Instance Item_eq_dec : EqDecision Item.
Proof. solve_decision. Defined.

(** Layout constants of Go's [time] package. *)
Definition RFC1123Z : string := "Mon, 02 Jan 2006 15:04:05 -0700".
Definition RFC1123 : string := "Mon, 02 Jan 2006 15:04:05 MST".
Definition UnixDate : string := "Mon Jan _2 15:04:05 MST 2006".
Definition ANSIC : string := "Mon Jan _2 15:04:05 2006".
Definition RFC850 : string := "Monday, 02-Jan-06 15:04:05 MST".
Definition RFC822 : string := "02 Jan 06 15:04 MST".
Definition RFC822Z : string := "02 Jan 06 15:04 -0700".

Definition layouts : list string :=
  [RFC1123Z; RFC1123; UnixDate; "02 Jan 2006 15:04:05 -0700";
   "Mon, 2 Jan 2006 15:04:05 -0700"; ANSIC; RFC850; RFC822; RFC822Z].

(** [time.Time{}.Unix()]: Go's zero time is January 1 of year 1, UTC.
    [time.Parse] returns the zero time together with its error. *)
Definition zeroTimeUnix : Z := -62135596800.

(** The loop of [unix.UnmarshalXML] over the layouts not yet tried; [pt]
    and [err] are the loop variables, a time being its Unix seconds. *)
Fixpoint tryLayouts (parse : string → string → Z + string)
    (ls : list string) (s : string) (pt : Z) (err : option string)
  : Z * option string :=
  match ls with
  | [] => (pt, err)
  | l :: ls' =>
      match parse l s with
      | inl t => (t, None)
      | inr e => tryLayouts parse ls' s zeroTimeUnix (Some e)
      end
  end.

(** [unix.UnmarshalXML]: [elem] is what [d.DecodeElement(&s, &start)]
    yields, [t] the value behind the receiver before the call.  The result
    is the value behind the receiver afterwards and the returned error. *)
Definition unix_UnmarshalXML (parse : string → string → Z + string)
    (elem : string + string) (t : Z) : Z * option string :=
  match elem with
  | inr e => (t, Some e)
  | inl s => tryLayouts parse layouts s zeroTimeUnix None
  end.

(** The text of an [<item>] element's children. *)
Record rawItem : Type := mkRawItem {
  raw_title : string;
  raw_pubDate : string;
  raw_description : string;
  raw_link : string
}.

(** [Item.UnmarshalXML]: decoding into [xmlItem] runs
    [unix.UnmarshalXML] on the [pubDate] child and fails with its error;
    only on success is [*i] assigned [xi.toItem()].  [strip] is
    [strip.StripTags]. *)
Definition Item_UnmarshalXML (parse : string → string → Z + string)
    (strip : string → string) (raw : rawItem) (i : Item)
  : Item * option string :=
  match unix_UnmarshalXML parse (inl (raw_pubDate raw)) 0 with
  | (_, Some e) => (i, Some e)
  | (pd, None) =>
      (mkItem 0 (raw_title raw) pd (strip (raw_description raw))
              (raw_link raw), None)
  end.

(** A [time.Parse] that accepts its input under the fourth layout only. *)
Definition acceptFourth (layout value : string) : Z + string :=
  if decide (layout = "02 Jan 2006 15:04:05 -0700") then inl 1659344500
  else inr ("cannot parse as " +:+ layout).

(** A [time.Parse] that rejects its input under every layout. *)
Definition rejectAll (layout value : string) : Z + string :=
  inr ("cannot parse as " +:+ layout).

End Storage.

(** ** The news service's postgres package: the statement builder *)
Module Postgres.
Import Storage.

(** A bound query argument ([any]); the builder binds strings and ints. *)
Inductive arg : Type :=
  | ArgString (s : string)
  | ArgInt (n : Z).

Record statement : Type := mkStatement {
  sql : string;
  args : list arg
}.

(** Go's [int] on the 64-bit targets the service is built for. *)
Definition wrap64 (z : Z) : Z := (z + 2 ^ 63) `mod` 2 ^ 64 - 2 ^ 63.

(** [fmt.Sprintf("$%d", len(stmt.args)+1)]. *)
Definition placeholder (stmt : statement) : string :=
  "$" +:+ pretty (S (length (args stmt))).

Definition calcLimitOffset (pageNum pageSize : Z) : Z * Z :=
  if decide (pageNum < 1) then (0, 0)
  else (pageSize, wrap64 (wrap64 (pageNum - 1) * pageSize)).

Definition searchStr (f : Filter) : string :=
  let b := String.concat "&" (TitleSearch f) in
  let b := if decide (0 < length (Exclude f))%nat then b +:+ "&!" else b in
  b +:+ String.concat "&!" (Exclude f).

Definition addLimitOffsetClause (f : Filter) (stmt : statement) : statement :=
  let '(l, o) := calcLimitOffset (Page f) PageSize in
  let stmt :=
    if decide (0 < l)
    then mkStatement (sql stmt +:+ " LIMIT " +:+ placeholder stmt)
                     (args stmt ++ [ArgInt l])
    else stmt in
  if decide (0 < o)
  then mkStatement (sql stmt +:+ " OFFSET " +:+ placeholder stmt)
                   (args stmt ++ [ArgInt o])
  else stmt.

Definition addOrderBy (f : Filter) (stmt : statement) : statement :=
  if decide (SortBy f = Empty) then
    mkStatement (sql stmt +:+ " ORDER BY " +:+ Sort_String ByDate +:+ " DESC")
                (args stmt)
  else if decide (SortBy f = Rank ∧ (0 < length (TitleSearch f))%nat) then
    mkStatement
      (sql stmt +:+ " ORDER BY ts_rank(title_search, to_tsquery('russian', "
         +:+ placeholder stmt +:+ ")) DESC")
      (args stmt ++ [ArgString (searchStr f)])
  else
    mkStatement
      (sql stmt +:+ " ORDER BY " +:+ Sort_String (SortBy f) +:+ " DESC")
      (args stmt).

(** The three [if] blocks of [addWhereClause], in order. *)
Definition whereSearch (f : Filter) (stmt : statement) : statement :=
  if decide (0 < length (TitleSearch f))%nat then
    mkStatement
      (sql stmt +:+ " WHERE title_search @@ to_tsquery('russian', "
         +:+ placeholder stmt +:+ ")")
      (args stmt ++ [ArgString (searchStr f)])
  else stmt.

Definition whereDate (f : Filter) (stmt : statement) : statement :=
  if decide (0 < Value (Date f)) then
    mkStatement
      (sql stmt +:+
         (if decide (0 < length (args stmt))%nat then " AND pub_date "
          else " WHERE pub_date ")
         +:+ Operator (Date f) +:+ " " +:+ placeholder stmt)
      (args stmt ++ [ArgInt (Value (Date f))])
  else stmt.

Definition whereEndDate (f : Filter) (stmt : statement) : statement :=
  if decide (0 < Value (Date f) ∧ 0 < Value (EndDate f)) then
    mkStatement
      (if decide (0 < length (args stmt))%nat
       then sql stmt +:+ " AND pub_date " +:+ Operator (EndDate f) +:+ " "
              +:+ placeholder stmt
       else sql stmt)
      (args stmt ++ [ArgInt (Value (EndDate f))])
  else stmt.

Definition addWhereClause (f : Filter) (stmt : statement) : statement :=
  whereEndDate f (whereDate f (whereSearch f stmt)).

(** The statement [Items] sends to the database. *)
Definition itemsStmt (f : Filter) : statement :=
  addLimitOffsetClause f
    (addOrderBy f
       (addWhereClause f
          (mkStatement "SELECT id, title, description, pub_date, link FROM news"
                       []))).

(** The part of [itemsStmt] built before the LIMIT/OFFSET clause. *)
Definition itemsStmtOrdered (f : Filter) : statement :=
  addOrderBy f
    (addWhereClause f
       (mkStatement "SELECT id, title, description, pub_date, link FROM news"
                    [])).

(** What [p.db.QueryRow(...).Scan(...)] can do in [Item]: fill the
    destination from a row, find no row, or fail before a row is read
    (connection, deadline, query error); in the last two cases the
    destination is left untouched. *)
Inductive scanResult : Type :=
  | Row (it : Item)
  | NoRows
  | Failure (e : string).

Definition ErrNoRows : string := "no rows in result set".

(** [Postgres.Item]: the zero [item] filled by [Scan], and its error. *)
Definition Item (q : Z → scanResult) (id : Z) : Storage.Item * option string :=
  match q id with
  | Row it => (it, None)
  | NoRows => (zeroItem, Some ErrNoRows)
  | Failure e => (zeroItem, Some e)
  end.

(** Filters used as examples. *)
Definition noTime : TimeFilter := mkTimeFilter 0 "".
Definition page1 : Filter := mkFilter [] Empty 1 noTime noTime [].
Definition page3 : Filter := mkFilter [] Empty 3 noTime noTime [].
Definition rankGo : Filter :=
  mkFilter ["x"; "y"] Rank 1 noTime noTime ["go"; "db"].

End Postgres.

(** ** The news service's api package *)
Module NewsAPI.
Import Storage.

(** What the handlers write: status code and payload. *)
Inductive body : Type :=
  | JSONItem (it : Item)
  | JSONString (s : string)
  | JSONError (msg : string).

Definition response : Type := Z * body.

Definition ErrInternal : string := "internal server error".

(** A failed parse: an error value, or the run-time panic of an index
    out of range. *)
Inductive failure : Type :=
  | BadInput (msg : string)
  | IndexPanic.

(** [itemHandler]: [s] is [mux.Vars(r)["id"]], [ParseInt] is
    [strconv.ParseInt(s, 10, 64)], [dbItem] is [api.db.Item]. *)
Definition itemHandler (ParseInt : string → option Z)
    (dbItem : Z → Item * option string) (s : string) : response :=
  match ParseInt s with
  | None => (404, JSONString "not found")
  | Some id =>
      match dbItem id with
      | (it, Some err) =>
          if decide (it = zeroItem) then (404, JSONString "not found")
          else (500, JSONError ErrInternal)
      | (it, None) => (200, JSONItem it)
      end
  end.

Definition operator (o : string) : string :=
  if decide (o = "gte") then ">="
  else if decide (o = "lte") then "<="
  else if decide (o = "lt") then "<"
  else if decide (o = "gt") then ">"
  else "=".

(** [strings.SplitN(s, ":", 2)]: the text before the first colon and, when
    there is a colon, the text after it. *)
Fixpoint splitColon (s : string) : string * option string :=
  match s with
  | EmptyString => (EmptyString, None)
  | String a s' =>
      if decide (a = ":"%char) then (EmptyString, Some s')
      else let '(h, t) := splitColon s' in (String a h, t)
  end.

(** [timeQParser]. *)
Definition timeQParser (parse : string → string → Z + string)
    (qp layout : string) : TimeFilter + failure :=
  if String.prefix "gte:" qp || String.prefix "lte:" qp then
    match splitColon qp with
    | (op, Some d) =>
        match parse layout d with
        | inr e => inr (BadInput e)
        | inl t => inl (mkTimeFilter t (operator op))
        end
    | (_, None) => inr IndexPanic
    end
  else
    match parse layout qp with
    | inr e => inr (BadInput e)
    | inl t => inl (mkTimeFilter t "=")
    end.

Definition sortQParser (s : string) : Sort + failure :=
  if decide (s = "") then inl Empty
  else if decide (s = "date") then inl ByDate
  else if decide (s = "title") then inl Title
  else if decide (s = "match") then inl Rank
  else inr (BadInput "bad `sortBy` parameter, must be either: 'date', 'title' or 'match'").

Definition layoutDate : string := "2006-01-02".

(** [qp[0]] for a value list of [url.Values]. *)
Definition first (qp : list string) : string + failure :=
  match qp with
  | v :: _ => inl v
  | [] => inr IndexPanic
  end.

(** [strings.Contains(s, ">")]. *)
Fixpoint containsGt (s : string) : bool :=
  match s with
  | EmptyString => false
  | String a s' => if decide (a = ">"%char) then true else containsGt s'
  end.

(** Sequencing of steps that may return early with a failure. *)
Definition andThen {A B : Type} (x : A + failure) (k : A → B + failure)
  : B + failure :=
  match x with
  | inl a => k a
  | inr e => inr e
  end.

(** [parseQP]; [params] is [u.Query()].  The filter is built field by
    field as in the source; an error aborts with that error.  In the
    messages the quotation marks that [%q] prints are written as
    apostrophes. *)
Definition parseQP (Atoi : string → option Z)
    (parse : string → string → Z + string)
    (params : gmap string (list string)) : Filter + failure :=
  andThen
    match params !! "page" with
    | Some qp =>
        andThen (first qp) (λ v,
          match Atoi v with
          | Some n => inl n
          | None => inr (BadInput "bad 'page' parameter: must be: page=NUM")
          end)
    | None => inl 1
    end (λ page,
  andThen
    match params !! "sortBy" with
    | Some qp => andThen (first qp) sortQParser
    | None => inl Empty
    end (λ sortBy,
  andThen
    match params !! "date" with
    | Some qp =>
        andThen (first qp) (λ v,
          match timeQParser parse v layoutDate with
          | inl tf => inl tf
          | inr (BadInput _) =>
              inr (BadInput
                "bad 'date' parameter: must be of the form: YYYY-MM-DD")
          | inr IndexPanic => inr IndexPanic
          end)
    | None => inl (mkTimeFilter 0 "")
    end (λ date,
  andThen
    match params !! "dateEnd" with
    | Some qp =>
        andThen (first qp) (λ v,
          match timeQParser parse v layoutDate with
          | inr (BadInput _) =>
              inr (BadInput
                "bad 'dateEnd' parameter: must be of the form: YYYY-MM-DD")
          | inr IndexPanic => inr IndexPanic
          | inl tf =>
              if containsGt (Operator tf) || bool_decide (Operator tf = "=")
              then inr (BadInput
                "bad `dateEnd` parameter: only '<' or '<=' is allowed")
              else if decide (Value date = 0)
              then inr (BadInput
                "bad 'dateEnd' parameter: you can't use it alone without 'date'")
              else inl tf
          end)
    | None => inl (mkTimeFilter 0 "")
    end (λ endDate,
  inl (mkFilter (default [] (params !! "exc")) sortBy page date endDate
                (default [] (params !! "s"))))))).



End NewsAPI.

(** ** The comments service *)
Module Comments.

(** [type Author struct]; [AuthorID] is Go's [Author.ID], renamed because
    [Comment] has an [ID] of its own. *)
Record Author : Type := mkAuthor {
  AuthorID : Z;
  Name : string
}.

(** [type Comment struct] of the comments service; [author] is the embedded
    [Author]. *)
Record Comment : Type := mkComment {
  ID : Z;
  NewsID : Z;
  ReplyID : Z;
  PostedAt : Z;
  Text : string;
  author : Author
}.

(** *** The sqlite package *)

(** The two tables of [schema.sql]. *)
Record db : Type := mkDb {
  authors : list Author;
  comments : list Comment
}.

(** The rowid an [INTEGER PRIMARY KEY] column gets on insert: one more
    than the largest in the table. *)
Definition nextId (ids : list Z) : Z := foldr Z.max 0 ids + 1.

(** [createAuthor]: the comment with the author id the store settled on,
    and the table afterwards. *)
Definition createAuthor (d : db) (c : Comment) : db * Comment :=
  if decide (AuthorID (author c) = 0) then
    let id := nextId (AuthorID <$> authors d) in
    (mkDb (authors d ++ [mkAuthor id (Name (author c))]) (comments d),
     mkComment (ID c) (NewsID c) (ReplyID c) (PostedAt c) (Text c)
               (mkAuthor id (Name (author c))))
  else if decide (AuthorID (author c) ∈ AuthorID <$> authors d) then (d, c)
  else (mkDb (authors d ++ [author c]) (comments d), c).

(** The statement [createComment] chooses and its arguments. *)
Inductive insert : Type :=
  | InsertPlain (author_id news_id reply_id : Z) (text : string) (ts : Z)
  | InsertDerived (author_id reply_id : Z) (text : string) (ts : Z).

Definition createComment_stmt (c : Comment) : insert :=
  if decide (NewsID c = 0 ∧ ReplyID c ≠ 0)
  then InsertDerived (AuthorID (author c)) (ReplyID c) (Text c) (PostedAt c)
  else InsertPlain (AuthorID (author c)) (NewsID c) (ReplyID c) (Text c)
                   (PostedAt c).

(** [(SELECT news_id FROM comments WHERE id = $2)]; [None] is NULL. *)
Definition newsIdOf (d : db) (id : Z) : option Z :=
  NewsID <$> head (filter (λ r, ID r = id) (comments d)).

(** Running the chosen INSERT against the schema: [news_id] is NOT NULL
    and [timestamp] must be positive. *)
Definition execInsert (d : db) (q : insert) : (db * Z) + string :=
  let id := nextId (ID <$> comments d) in
  let put news reply text ts aid :=
    if decide (0 < ts) then
      inl (mkDb (authors d)
                (comments d ++
                   [mkComment id news reply ts text
                      (mkAuthor aid
                         (default "" (Name <$> head
                            (filter (λ a, AuthorID a = aid) (authors d)))))]),
           id)
    else inr "CHECK constraint failed: timestamp > 0" in
  match q with
  | InsertPlain aid news reply text ts => put news reply text ts aid
  | InsertDerived aid reply text ts =>
      match newsIdOf d reply with
      | Some news => put news reply text ts aid
      | None => inr "NOT NULL constraint failed: comments.news_id"
      end
  end.

(** [createComment]. *)
Definition createComment (d : db) (c : Comment) : (db * Z) + string :=
  execInsert d (createComment_stmt c).

(** [Create]: both inserts in one transaction; on an error the
    transaction is rolled back and the tables are unchanged. *)
Definition Create (d : db) (c : Comment) : db * (Z * option string) :=
  let '(d1, c1) := createAuthor d c in
  match createComment d1 c1 with
  | inl (d2, id) => (d2, (id, None))
  | inr e => (d, (0, Some e))
  end.

(** *** The api package *)

Inductive body : Type :=
  | JSONId (id : Z)
  | JSONError (msg : string).

Definition ErrInternal : string := "internal server error".
Definition ErrNoNewsID : string :=
  "invalid input: 'news_id' not found in query parameters".

(** [handleCommentCreate]: [decoded] is the outcome of decoding the
    request body, [create] is [api.repo.Create]. *)
Definition handleCommentCreate (create : Comment → Z * option string)
    (decoded : Comment + string) : Z * body :=
  match decoded with
  | inr e => (400, JSONError e)
  | inl c =>
      if decide (NewsID c = 0) then (400, JSONError ErrNoNewsID)
      else match create c with
           | (_, Some _) => (500, JSONError ErrInternal)
           | (id, None) => (201, JSONId id)
           end
  end.

(** The first three comments of the sqlite test, stored. *)
Definition testDb : db :=
  mkDb [mkAuthor 1 "alice"; mkAuthor 3 "john"; mkAuthor 2 "bob"]
       [mkComment 1 1 10 1659947255 "this is simple test comment"
                  (mkAuthor 1 "alice");
        mkComment 2 1 1 1659947256 "this is another test comment"
                  (mkAuthor 3 "john");
        mkComment 3 1 0 1659947257 "this is simple another test comment"
                  (mkAuthor 2 "bob")].

(** [testcom4] of the sqlite test: no news id, a reply to comment 2. *)
Definition testcom4 : Comment :=
  mkComment 4 0 2 1659947258 "this is test comment as reply to john comment"
            (mkAuthor 4 "gary").

End Comments.

(** ** The news table behind the postgres package *)
Module PostgresStore.
Import Storage Postgres.

(** The statement [CountItems] sends to the database. *)
Definition countStmt (f : Filter) : statement :=
  addWhereClause f (mkStatement "SELECT COUNT(id) FROM news" []).

(** The [news] table of [schema.sql]: its rows in insertion order and the
    last value drawn from the sequence behind the BIGSERIAL [id]. *)
Record table : Type := mkTable {
  rows : list Storage.Item;
  serial : Z
}.

(** One [INSERT INTO news(title, description, pub_date, link) VALUES ...
    ON CONFLICT (link) DO NOTHING]: the id is drawn from the sequence, the
    row must pass [CHECK(pub_date > 0)], and a stored row with the same
    link makes the statement do nothing.  The result is the table
    afterwards and the statement's error; a drawn sequence value is never
    given back. *)
Definition insertItem (t : table) (it : Storage.Item) : table * option string :=
  let id := serial t + 1 in
  if decide (PubDate it ≤ 0)
  then (mkTable (rows t) id, Some "violates check constraint")
  else if decide (Link it ∈ Link <$> rows t)
  then (mkTable (rows t) id, None)
  else (mkTable (rows t ++ [mkItem id (Title_ it) (PubDate it)
                                   (Description it) (Link it)]) id,
        None).

(** The queued statements of a batch, run in order up to the first
    error. *)
Fixpoint insertAll (t : table) (items : list Storage.Item) : table * option string :=
  match items with
  | [] => (t, None)
  | it :: rest =>
      match insertItem t it with
      | (t', None) => insertAll t' rest
      | (t', Some e) => (t', Some e)
      end
  end.

(** [addItemsByBatch]: the batch runs inside [BeginFunc], so an error
    rolls the rows back to what they were. *)
Definition addItemsByBatch (t : table) (items : list Storage.Item)
  : table * option string :=
  match insertAll t items with
  | (t', None) => (t', None)
  | (t', Some e) => (mkTable (rows t) (serial t'), Some e)
  end.

(** [AddItems]. *)
Definition AddItems (t : table) (items : list Storage.Item) : table * option string :=
  addItemsByBatch t items.

(** [AddItem]: [exec] opens a transaction but runs the statement on the
    pool, so the statement commits on its own. *)
Definition AddItem (t : table) (item : Storage.Item) : table * option string :=
  insertItem t item.

(** [ItemByLink]. *)
Definition ItemByLink (t : table) (link : string) : Storage.Item * option string :=
  match head (filter (λ r, Link r = link) (rows t)) with
  | Some it => (it, None)
  | None => (zeroItem, Some ErrNoRows)
  end.

(** What the query of [Item] finds in the table. *)
Definition queryById (t : table) (id : Z) : scanResult :=
  match head (filter (λ r, Id r = id) (rows t)) with
  | Some it => Row it
  | None => NoRows
  end.

(** The constraints of [schema.sql] on the stored rows: unique links,
    unique ids drawn from the sequence, positive publication dates. *)
Definition wf_table (t : table) : Prop :=
  NoDup (Link <$> rows t) ∧ NoDup (Id <$> rows t) ∧
  Forall (λ r, Id r ≤ serial t ∧ 0 < PubDate r) (rows t).

(** Two filters that may differ in what they bind, not in which clauses
    they ask for. *)
Definition same_clauses (f g : Filter) : Prop :=
  SortBy f = SortBy g ∧ Page f = Page g ∧
  Operator (Date f) = Operator (Date g) ∧
  Operator (EndDate f) = Operator (EndDate g) ∧
  (TitleSearch f = [] ↔ TitleSearch g = []) ∧
  (0 < Value (Date f) ↔ 0 < Value (Date g)) ∧
  (0 < Value (EndDate f) ↔ 0 < Value (EndDate g)).

(** [g] only appends: to the SQL text and to the arguments, and what it
    appends depends on the statement so far only through the number of
    its arguments. *)
Definition appends (g : statement → statement) : Prop :=
  ∀ n, ∃ w a, ∀ st, length (args st) = n →
    g st = mkStatement (sql st +:+ w) (args st ++ a).

(** The four items of the postgres test. *)
Definition testItem1 : Storage.Item :=
  mkItem 1 "title 1; go go go go" 1659603700 "text 1"
         "https://test.com/14987527".
Definition testItem2 : Storage.Item :=
  mkItem 2 "title 2; db db db go go" 1659517300 "text 2"
         "https://test.com/14987528".

Definition emptyTable : table := mkTable [] 0.

End PostgresStore.

(** ** Reading comments *)
Module CommentsRead.
Import Comments.

Definition ErrNoRows : string := "sql: no rows in result set".
Definition ErrBadInput : string := "invalid input".

(** The row of [authors] joined to a comment by [c.author_id = a.id]. *)
Definition joinAuthor (d : db) (c : Comment) : option Comment :=
  a ← head (filter (λ a, AuthorID a = AuthorID (author c)) (authors d));
  Some (mkComment (ID c) (NewsID c) (ReplyID c) (PostedAt c) (Text c) a).

(** [Read]: the comments of a news item joined with their authors, in
    table order; no row at all is reported as [ErrNoRows] with a nil
    slice. *)
Definition Read (d : db) (newsID : Z) : list Comment * option string :=
  let coms := omap (joinAuthor d)
                   (filter (λ c, NewsID c = newsID) (comments d)) in
  if decide (length coms = 0%nat) then ([], Some ErrNoRows)
  else (coms, None).

Inductive body : Type :=
  | JSONComments (coms : list Comment)
  | JSONError (msg : string).

(** [handleCommentRead]: [s] is the [news-id] query parameter (empty when
    absent), [ParseInt] is [strconv.ParseInt(s, 10, 64)], [read] is
    [api.repo.Read]. *)
Definition handleCommentRead (ParseInt : string → option Z)
    (read : Z → list Comment * option string) (s : string) : Z * body :=
  if decide (s = "") then (400, JSONError ErrNoNewsID)
  else match ParseInt s with
       | None => (400, JSONError ErrBadInput)
       | Some id =>
           match read id with
           | (coms, Some err) =>
               if decide (err = ErrNoRows) then (200, JSONComments coms)
               else (500, JSONError ErrInternal)
           | (coms, None) => (200, JSONComments coms)
           end
       end.

(** The constraints the two tables satisfy: unique comment ids, unique
    author ids, and every comment's author stored. *)
Definition wf_db (d : db) : Prop :=
  NoDup (ID <$> comments d) ∧ NoDup (AuthorID <$> authors d) ∧
  Forall (λ c, author c ∈ authors d) (comments d) ∧
  Forall (λ c, 0 < ID c) (comments d) ∧
  Forall (λ a, 0 < AuthorID a) (authors d).

End CommentsRead.

(** ** The moderation service *)
Module Moderation.
Import Comments.

(** [strings.Contains]. *)
Fixpoint contains (s substr : string) : bool :=
  String.prefix substr s ||
  match s with
  | EmptyString => false
  | String _ s' => contains s' substr
  end.

Definition swearing : list string := ["qwerty"; "йцукен"; "zxvbnm"].

(** [Banned]: the loop over [swearing]. *)
Definition Banned (c : Comment) : bool :=
  existsb (contains (Text c)) swearing.

Inductive body : Type :=
  | JSONResponse (r : string)
  | JSONError (msg : string).

(** [handleCommentCheck]; [decoded] is the outcome of decoding the
    request body. *)
Definition handleCommentCheck (decoded : Comment + string) : Z * body :=
  match decoded with
  | inr e => (400, JSONError e)
  | inl c =>
      if Banned c then (400, JSONResponse "banned")
      else (200, JSONResponse "allowed")
  end.

End Moderation.

(** ** The gateway's api package *)
Module Gateway.

(** [handleCommentCreate] of the gateway.  [check] and [post] are the
    POST requests to the moderation and to the comments service: [None]
    when [makeRequest] returns an error, the status and body of the
    response otherwise; [post] also changes the state [S] behind the
    comments service.  [internal] is the body [WriteJSONError] writes for
    a 500. *)
Definition handleCommentCreate {Req B S : Type}
    (check : Req → option (Z * B))
    (post : S → Req → S * option (Z * B))
    (internal : B) (s : S) (req : Req) : S * (Z * B) :=
  match check req with
  | None => (s, (500, internal))
  | Some resp =>
      if decide (resp.1 ≠ 200) then (s, resp)
      else match post s req with
           | (s', None) => (s', (500, internal))
           | (s', Some resp') => (s', resp')
           end
  end.

(** What the gateway hands back for a posted comment: the moderation
    service's body, the comments service's body, or its own error. *)
Inductive payload : Type :=
  | FromCheck (b : Moderation.body)
  | FromComments (b : Comments.body)
  | OwnError (msg : string).

(** The gateway in front of the two handlers, with the comments store as
    state and no transport errors. *)
Definition postComment (d : Comments.db) (decoded : Comments.Comment + string)
  : Comments.db * (Z * payload) :=
  handleCommentCreate
    (λ req, let r := Moderation.handleCommentCheck req in
            Some (r.1, FromCheck r.2))
    (λ d req,
       match req with
       | inl c =>
           let r := Comments.handleCommentCreate
                      (λ c, (Comments.Create d c).2) req in
           (if decide (r.1 = 201) then (Comments.Create d c).1 else d,
            Some (r.1, FromComments r.2))
       | inr _ =>
           let r := Comments.handleCommentCreate
                      (λ c, (Comments.Create d c).2) req in
           (d, Some (r.1, FromComments r.2))
       end)
    (OwnError "internal server error") d decoded.

Definition letters : string :=
  "abcdefghijklmnopqrstuvwxyzABCDEFGHIJKLMNOPQRSTUVWXYZ".
Definition nums : string := "1234567890".

(** [s[i]] for a string of one-byte runes; [None] is the index panic. *)
Definition runeAt (s : string) (i : nat) : option ascii := String.get i s.

(** The loop of [randStr] from iteration [i] on, [k] iterations left.
    [intn j b] is what the [j]-th call [rand.Intn(b)] returns; each
    iteration makes one call.  [None] is an index panic. *)
Fixpoint randStr_loop (intn : nat → nat → nat) (i : Z) (k : nat)
  : option string :=
  match k with
  | O => Some EmptyString
  | S k' =>
      r ← (if decide (Z.lxor i 1 = i + 1)
           then runeAt nums (intn (Z.to_nat i) (String.length nums))
           else runeAt letters (intn (Z.to_nat i) (String.length letters)));
      rest ← randStr_loop intn (i + 1) k';
      Some (String r rest)
  end.

(** [randStr(n)]. *)
Definition randStr (intn : nat → nat → nat) (n : Z) : option string :=
  randStr_loop intn 0 (Z.to_nat n).

(** The request id [requestIDMiddleware] puts into the context; [q] is
    the [request-id] query parameter, empty when absent. *)
Definition requestId (intn : nat → nat → nat) (q : string) : option string :=
  if decide (q = "") then randStr intn 18 else Some q.

Definition is_letter (a : ascii) : bool :=
  let n := nat_of_ascii a in
  ((97 <=? n) && (n <=? 122))%nat || ((65 <=? n) && (n <=? 90))%nat.

End Gateway.

(** ** The services' main packages *)
Module Cmd.

(** The error of [envs]: [fmt.Errorf] naming the variable that is not
    set. *)
Inductive envError : Type :=
  | MustBeSet (env : string).

(** The loop of [envs]; [lookupEnv] is [os.LookupEnv], [em] the map
    filled so far. *)
Fixpoint envs_loop (lookupEnv : string → option string)
    (em : gmap string string) (names : list string)
  : gmap string string + envError :=
  match names with
  | [] => inl em
  | env :: rest =>
      match lookupEnv env with
      | Some v => envs_loop lookupEnv (<[env := v]> em) rest
      | None => inr (MustBeSet env)
      end
  end.

(** [envs]. *)
Definition envs (lookupEnv : string → option string) (names : list string)
  : gmap string string + envError :=
  envs_loop lookupEnv ∅ names.

Definition ErrRetryExceeded : string :=
  "connect DB: number of retries exceeded".

(** The loop of the comments service's [connectDB] from attempt [i] on,
    [k] attempts left.  [new i] is what the [i]-th call [sqlite.New]
    returns ([None] for an error), [runFile] the error of [db.RunFile], if
    any. *)
Fixpoint connectDB_loop {D : Type} (new : nat → option D)
    (runFile : D → option string) (i k : nat) : D + string :=
  match k with
  | O => inr ErrRetryExceeded
  | S k' =>
      match new i with
      | None => connectDB_loop new runFile (S i) k'
      | Some db =>
          match runFile db with
          | Some e => inr e
          | None => inl db
          end
      end
  end.

(** [connectDB]. *)
Definition connectDB {D : Type} (new : nat → option D)
    (runFile : D → option string) (retries : Z) : D + string :=
  connectDB_loop new runFile 0 (Z.to_nat retries).

End Cmd.

(** ** Notions used by the further properties of [ToTree] *)
Module DomainAux.
Import Domain.

(** The map still holds, for every position of [C] on a reply cycle, the
    pointers of the positions on a cycle that reply to it. *)
Definition keeps_cycles (C : list Comment) (m : gmap Z (list nat)) : Prop :=
  ∀ x y c, tc (par C) x x → tc (par C) y y → par C y x →
           C !! x = Some c → y ∈ refs m (Id c).

End DomainAux.

(** * Properties of [ToTree] *)
Module DomainFacts.
Import Domain.

Lemma flat_appendReply p c : flat (appendReply p c) = flat p.
Proof. reflexivity. Qed.

Lemma flat_addReplies c rs : flat (addReplies c rs) = flat c.
Proof. reflexivity. Qed.

Lemma addReplies_nil c : addReplies c [] = c.
Proof. destruct c; unfold addReplies; simpl. by rewrite app_nil_r. Qed.

Lemma appendReply_addReplies c rs x :
  appendReply (addReplies c rs) x = addReplies c (rs ++ [x]).
Proof. unfold appendReply, addReplies; simpl. by rewrite app_assoc. Qed.

Lemma flat_Id c d : flat c = flat d → Id c = Id d.
Proof. intros H. by injection H. Qed.

Lemma flat_ReplyID c d : flat c = flat d → ReplyID c = ReplyID d.
Proof. intros H. by injection H. Qed.

(** ** The first loop *)

Lemma index_pass_snoc C c :
  index_pass (C ++ [c]) = index_step (index_pass C) (length C, c).
Proof.
  unfold index_pass. rewrite imap_app, foldl_app. simpl.
  by rewrite Nat.add_0_r.
Qed.

Lemma filter_ext_elem {A} (P Q : A → Prop) `{!∀ x, Decision (P x)}
    `{!∀ x, Decision (Q x)} (l : list A) :
  (∀ x, x ∈ l → P x ↔ Q x) → filter P l = filter Q l.
Proof.
  induction l as [|x l IH]; intros Hext; [done|].
  rewrite !filter_cons.
  assert (P x ↔ Q x) as Hx by (apply Hext; left).
  rewrite IH by (intros y Hy; apply Hext; by right).
  destruct (decide (P x)), (decide (Q x)); tauto.
Qed.

Lemma kids_snoc C c key :
  kids (C ++ [c]) key =
  kids C key ++ (if decide (ReplyID c = key) then [length C] else []).
Proof.
  unfold kids. rewrite length_app. simpl.
  rewrite Nat.add_1_r, seq_S, filter_app. simpl. f_equal.
  - apply filter_ext_elem. intros i Hi. apply elem_of_seq in Hi.
    rewrite lookup_app_l by lia. done.
  - rewrite filter_cons, filter_nil.
    rewrite list_lookup_middle by done. simpl.
    destruct (decide (ReplyID c = key)) as [->|Hne].
    + by rewrite decide_True.
    + rewrite decide_False; [done|]. intros [=]. done.
Qed.

Lemma elem_of_kids C key v :
  v ∈ kids C key ↔ ∃ c, C !! v = Some c ∧ ReplyID c = key.
Proof.
  unfold kids. rewrite list_elem_of_filter, elem_of_seq. split.
  - intros [H _]. destruct (C !! v) as [c|]; simplify_eq/=. eauto.
  - intros (c & Hc & <-). rewrite Hc. split; [done|].
    apply lookup_lt_Some in Hc. lia.
Qed.

Lemma NoDup_kids C key : NoDup (kids C key).
Proof. apply NoDup_filter, NoDup_seq. Qed.

Lemma roots_snoc C c :
  roots (C ++ [c]) = roots C ++ (if decide (ReplyID c = 0) then [c] else []).
Proof.
  unfold roots. rewrite filter_app, filter_cons, filter_nil. done.
Qed.

(** What the first loop leaves in the map and in [tops]. *)
Lemma index_pass_spec C :
  (∀ key, refs (index_pass C).1 key =
          if decide (key = 0) then [] else kids C key) ∧
  (index_pass C).2 = length (roots C).
Proof.
  induction C as [|c C [IHm IHt]] using rev_ind.
  - split; [|done]. intros key. unfold refs, index_pass; simpl.
    rewrite lookup_empty. by destruct (decide _).
  - rewrite index_pass_snoc, roots_snoc.
    destruct (index_pass C) as [m tops]; simpl in *.
    destruct (decide (ReplyID c = 0)) as [Hr|Hr]; simpl.
    + split.
      * intros key. rewrite kids_snoc.
        assert (refs (match m !! Id c with
                      | Some _ => m | None => <[Id c:=[]]> m end) key
                = refs m key) as ->.
        { destruct (m !! Id c) eqn:E; [done|]. unfold refs.
          destruct (decide (Id c = key)) as [<-|Hne].
          - by rewrite lookup_insert_eq, E.
          - by rewrite lookup_insert_ne. }
        rewrite IHm. destruct (decide (key = 0)); [done|].
        rewrite decide_False by congruence. by rewrite app_nil_r.
      * rewrite length_app. simpl. lia.
    + split.
      * intros key. rewrite kids_snoc. unfold refs at 1.
        destruct (decide (ReplyID c = key)) as [<-|Hne].
        -- rewrite lookup_insert_eq. simpl. rewrite IHm.
           by repeat case_decide.
        -- rewrite lookup_insert_ne by done. fold (refs m key).
           rewrite IHm. by rewrite app_nil_r.
      * rewrite app_nil_r. done.
Qed.

(** ** Unfolding the loop bodies *)

Lemma foldM_cons_Some {A B} (f : B → A → option B) b a l r :
  foldM f b (a :: l) = Some r ↔ ∃ b', f b a = Some b' ∧ foldM f b' l = Some r.
Proof.
  simpl. destruct (f b a) as [b'|]; split.
  - intros Hr. exists b'. by split.
  - by intros (? & [= <-] & ?).
  - done.
  - by intros (? & ? & ?).
Qed.

Lemma attach_Some digf i cs v cs' :
  attach digf i cs v = Some cs' ↔
  ∃ cs1 child parent, digf v cs = Some cs1 ∧ cs1 !! v = Some child ∧
    cs1 !! i = Some parent ∧ cs' = <[i := appendReply parent child]> cs1.
Proof.
  unfold attach. split.
  - intros H. destruct (digf v cs) as [cs1|]; simpl in H; [|done].
    destruct (cs1 !! v) as [child|] eqn:Hv; simpl in H; [|done].
    destruct (cs1 !! i) as [parent|] eqn:Hi; simpl in H; [|done].
    injection H as <-. by exists cs1, child, parent.
  - intros (cs1 & child & parent & -> & Hv & Hi & ->). simpl.
    rewrite Hv. simpl. rewrite Hi. done.
Qed.

(** ** Shape: only [Replies] fields change *)
Section shape.
Context (C : list Comment).

Lemma same_shape_length cs : same_shape C cs → length cs = length C.
Proof.
  intros H. unfold same_shape in H.
  apply (f_equal length) in H. by rewrite !length_fmap in H.
Qed.

Lemma same_shape_lookup cs i c :
  same_shape C cs → cs !! i = Some c →
  ∃ c0, C !! i = Some c0 ∧ flat c = flat c0.
Proof.
  intros H Hc. apply (f_equal (.!! i)) in H.
  rewrite !list_lookup_fmap, Hc in H. simpl in H.
  destruct (C !! i) as [c0|]; simpl in H; [|done].
  apply (inj Some) in H. by exists c0.
Qed.

Lemma same_shape_lookup_inv cs i c0 :
  same_shape C cs → C !! i = Some c0 →
  ∃ c, cs !! i = Some c ∧ flat c = flat c0.
Proof.
  intros H Hc. apply (f_equal (.!! i)) in H.
  rewrite !list_lookup_fmap, Hc in H. simpl in H.
  destruct (cs !! i) as [c|]; simpl in H; [|done].
  apply (inj Some) in H. by exists c.
Qed.

Lemma same_shape_insert cs i x p :
  same_shape C cs → cs !! i = Some p → flat x = flat p →
  same_shape C (<[i := x]> cs).
Proof.
  unfold same_shape. intros H Hp Hx.
  rewrite list_fmap_insert, Hx, <- H.
  apply list_insert_id. by rewrite list_lookup_fmap, Hp.
Qed.

Lemma attach_fold_shape digf i vs : ∀ cs cs',
  (∀ v cs cs', digf v cs = Some cs' → same_shape C cs → same_shape C cs') →
  foldM (attach digf i) cs vs = Some cs' →
  same_shape C cs → same_shape C cs'.
Proof.
  induction vs as [|v vs IH]; intros cs cs' Hd Hf Hs.
  - by injection Hf as <-.
  - apply foldM_cons_Some in Hf as (cs2 & Ha & Hf).
    apply attach_Some in Ha as (cs1 & child & parent & H1 & Hv & Hi & ->).
    apply (IH _ _ Hd Hf).
    eapply same_shape_insert; eauto using flat_appendReply.
Qed.

Lemma dig_shape fuel : ∀ m i cs cs',
  dig fuel m i cs = Some cs' → same_shape C cs → same_shape C cs'.
Proof.
  induction fuel as [|fuel IH]; intros m i cs cs' Hd Hs; [done|].
  simpl in Hd. destruct (cs !! i) as [c|]; simpl in Hd; [|done].
  destruct (refs m (Id c)) as [|v vs]; [by injection Hd as <-|].
  apply (attach_fold_shape (dig fuel m) i (v :: vs) cs cs'); [|done..].
  intros v' cs1 cs2 H1 H2. by apply (IH m v' cs1 cs2).
Qed.
End shape.

(** ** Termination when the reply references are acyclic *)
Section total.
Context (C : list Comment) (h : Z → nat).
Hypothesis Hacyc : acyclic h C.

Lemma attach_fold_total digf m i key vs : ∀ cs,
  wf_refs C m → is_Some (C !! i) →
  (∀ v cs, v ∈ refs m key → same_shape C cs → is_Some (digf v cs)) →
  (∀ v cs cs', digf v cs = Some cs' → same_shape C cs → same_shape C cs') →
  (∀ v, v ∈ vs → v ∈ refs m key) →
  same_shape C cs →
  is_Some (foldM (attach digf i) cs vs).
Proof.
  induction vs as [|v vs IH]; intros cs Hwf [ci Hi] Ht Hsh Hin Hs; [by eexists|].
  destruct (Ht v cs) as [cs1 H1]; [apply Hin; left|done|].
  pose proof (Hsh _ _ _ H1 Hs) as Hs1.
  destruct (Hwf key) as [_ Hk].
  destruct (Hk v) as (_ & cv0 & Hv0 & _); [apply Hin; left|].
  destruct (same_shape_lookup_inv C cs1 v cv0) as (cv & Hv & _); [done..|].
  destruct (same_shape_lookup_inv C cs1 i ci) as (p & Hp & _); [done..|].
  assert (attach digf i cs v = Some (<[i := appendReply p cv]> cs1)) as Ha.
  { apply attach_Some. eauto 10. }
  destruct (IH (<[i := appendReply p cv]> cs1)) as [r Hr]; eauto.
  { intros; apply Hin; by right. }
  { eapply same_shape_insert; eauto using flat_appendReply. }
  exists r. apply foldM_cons_Some. eauto.
Qed.

Lemma dig_total fuel : ∀ m i cs c,
  wf_refs C m → same_shape C cs → cs !! i = Some c →
  (h (Id c) < fuel)%nat → is_Some (dig fuel m i cs).
Proof.
  induction fuel as [|fuel IH]; intros m i cs c Hwf Hs Hc Hlt; [lia|].
  simpl. rewrite Hc. simpl.
  destruct (refs m (Id c)) as [|v vs] eqn:E; [by eexists|].
  destruct (same_shape_lookup C cs i c) as (c0 & Hc0 & Hfl); [done..|].
  apply (attach_fold_total (dig fuel m) m i (Id c) (v :: vs));
    [done|by eexists| |by eauto using dig_shape|by rewrite E|done].
  intros v' cs' Hv' Hs'.
  destruct (Hwf (Id c)) as [_ Hk].
  destruct (Hk v' Hv') as (Hne & cv0 & Hv0 & Hr).
  destruct (same_shape_lookup_inv C cs' v' cv0) as (cv & Hcv & Hfv); [done..|].
  apply (IH m v' cs' cv); try done.
  rewrite (flat_Id _ _ Hfv).
  assert (h (Id cv0) < h (ReplyID cv0))%nat.
  { eapply Forall_forall in Hacyc; [apply Hacyc; congruence|].
    by eapply list_elem_of_lookup_2. }
  rewrite Hr in *. lia.
Qed.
End total.

(** ** The second loop as repeated [dig] *)

Lemma inline_step_dig fuel m cs i c :
  cs !! i = Some c →
  inline_step fuel (m, cs) i =
  (λ cs', (match refs m (Id c) with [] => m | _ => <[Id c := []]> m end, cs'))
    <$> dig (S fuel) m i cs.
Proof.
  intros Hc. unfold inline_step. simpl. rewrite Hc. simpl.
  destruct (refs m (Id c)) as [|v vs]; [done|].
  by destruct (attach (dig fuel m) i cs v) as [cs1|].
Qed.

Lemma refs_clear m k key :
  refs (<[k := []]> m) key = if decide (k = key) then [] else refs m key.
Proof.
  unfold refs. destruct (decide (k = key)) as [->|Hne].
  - by rewrite lookup_insert_eq.
  - by rewrite lookup_insert_ne.
Qed.

Lemma wf_refs_clear C m k : wf_refs C m → wf_refs C (<[k := []]> m).
Proof.
  intros Hwf key. rewrite refs_clear. destruct (decide (k = key)).
  - split; [constructor|]. intros v Hv. by apply elem_of_nil in Hv.
  - apply Hwf.
Qed.

Lemma wf_refs_index_pass C : wf_refs C (index_pass C).1.
Proof.
  intros key. destruct (index_pass_spec C) as [-> _].
  destruct (decide (key = 0)) as [->|Hne].
  - split; [constructor|]. intros v Hv. by apply elem_of_nil in Hv.
  - split; [apply NoDup_kids|]. intros v Hv. split; [done|].
    by apply elem_of_kids.
Qed.

Lemma rank_bound_ge h C c : c ∈ C → (h (Id c) ≤ rank_bound h C)%nat.
Proof.
  intros Hc. apply max_list_elem_of_le.
  apply list_elem_of_fmap. by exists c.
Qed.

Section loop_total.
Context (C : list Comment) (h : Z → nat).
Hypothesis Hacyc : acyclic h C.

Lemma inline_step_total fuel m cs i :
  wf_refs C m → same_shape C cs → (i < length C)%nat →
  (rank_bound h C < fuel)%nat →
  ∃ m' cs', inline_step fuel (m, cs) i = Some (m', cs') ∧
            wf_refs C m' ∧ same_shape C cs'.
Proof.
  intros Hwf Hs Hi Hlt.
  destruct (lookup_lt_is_Some_2 C i Hi) as [c0 Hc0].
  destruct (same_shape_lookup_inv C cs i c0) as (c & Hc & Hfl); [done..|].
  destruct (dig_total C h Hacyc (S fuel) m i cs c) as [cs' Hd]; [done..| |].
  { rewrite (flat_Id _ _ Hfl).
    pose proof (rank_bound_ge h C c0 (list_elem_of_lookup_2 _ _ _ Hc0)). lia. }
  rewrite (inline_step_dig fuel m cs i c Hc), Hd. simpl.
  eexists _, cs'. split; [done|]. split; [|by eapply dig_shape].
  destruct (refs m (Id c)); [done|]. by apply wf_refs_clear.
Qed.

Lemma inline_loop_total fuel l : ∀ m cs,
  wf_refs C m → same_shape C cs → (∀ i, i ∈ l → (i < length C)%nat) →
  (rank_bound h C < fuel)%nat →
  is_Some (foldM (inline_step fuel) (m, cs) l).
Proof.
  induction l as [|i l IH]; intros m cs Hwf Hs Hl Hlt; [by eexists|].
  destruct (inline_step_total fuel m cs i) as (m' & cs' & He & Hwf' & Hs');
    [done..|apply Hl; left|done|].
  destruct (IH m' cs') as [r Hr]; [done..|intros; apply Hl; by right|done|].
  exists r. apply foldM_cons_Some. eauto.
Qed.

Lemma ToTree_total fuel :
  (rank_bound h C < fuel)%nat → is_Some (ToTree fuel C).
Proof.
  intros Hlt. unfold ToTree.
  pose proof (wf_refs_index_pass C) as Hwf.
  destruct (index_pass C) as [m tops]; simpl in Hwf.
  destruct (inline_loop_total fuel (seq 0 (length C)) m C) as [st Hst];
    [done..| |done|].
  { intros i Hi. apply elem_of_seq in Hi. lia. }
  rewrite Hst. simpl. by eexists.
Qed.
End loop_total.

(** ** Divergence on a reply cycle *)

Lemma refs_cyclic :
  refs (index_pass cyclic_in).1 1 = [1%nat] ∧
  refs (index_pass cyclic_in).1 2 = [0%nat].
Proof. split; vm_compute; reflexivity. Qed.

Lemma dig_cyclic m fuel : ∀ cs,
  refs m 1 = [1%nat] → refs m 2 = [0%nat] →
  same_shape cyclic_in cs →
  dig fuel m 0 cs = None ∧ dig fuel m 1 cs = None.
Proof.
  induction fuel as [|fuel IH]; intros cs R1 R2 Hs; [done|].
  destruct (same_shape_lookup_inv cyclic_in cs 0 (node 1 2 []))
    as (c0 & Hc0 & Hf0); [done..|].
  destruct (same_shape_lookup_inv cyclic_in cs 1 (node 2 1 []))
    as (c1 & Hc1 & Hf1); [done..|].
  apply flat_Id in Hf0, Hf1. simpl in Hf0, Hf1.
  destruct (IH cs R1 R2 Hs) as [IH0 IH1].
  split; simpl.
  - rewrite Hc0. simpl. rewrite Hf0, R1. simpl. unfold attach.
    by rewrite IH1.
  - rewrite Hc1. simpl. rewrite Hf1, R2. simpl. unfold attach.
    by rewrite IH0.
Qed.

Lemma ToTree_cyclic fuel : ToTree fuel cyclic_in = None.
Proof.
  destruct refs_cyclic as [R1 R2].
  unfold ToTree. destruct (index_pass cyclic_in) as [m tops].
  simpl in R1, R2.
  destruct (dig_cyclic m fuel cyclic_in R1 R2 eq_refl) as [_ D1].
  simpl. rewrite R1. simpl. unfold attach. by rewrite D1.
Qed.

(** ** The reply relation on positions *)
Section replies.
Context (C : list Comment) (h : Z → nat).
Hypothesis Hacyc : acyclic h C.
Hypothesis Hids : NoDup (Id <$> C).

Lemma par_inj v j1 j2 : par C v j1 → par C v j2 → j1 = j2.
Proof.
  intros (cv & c1 & Hv & H1 & _ & E1) (cv' & c2 & Hv' & H2 & _ & E2).
  simplify_eq. eapply NoDup_lookup; [exact Hids|..].
  - rewrite list_lookup_fmap, H1. simpl. by rewrite <- E1.
  - rewrite list_lookup_fmap, H2. simpl. by rewrite <- E2.
Qed.

Lemma par_rank v j : par C v j → (rankAt h C v < rankAt h C j)%nat.
Proof.
  intros (cv & cj & Hv & Hj & Hne & E). unfold rankAt.
  rewrite (list_lookup_total_correct _ _ _ Hv).
  rewrite (list_lookup_total_correct _ _ _ Hj), <- E.
  eapply Forall_forall in Hacyc; [by apply Hacyc|].
  by eapply list_elem_of_lookup_2.
Qed.

Lemma below_rank d j :
  rtc (par C) d j → (rankAt h C d ≤ rankAt h C j)%nat.
Proof.
  induction 1 as [|d x j Hp _ IH]; [done|].
  apply par_rank in Hp. lia.
Qed.

Lemma not_below_child v k : par C v k → ¬ rtc (par C) k v.
Proof.
  intros Hp Hr. apply par_rank in Hp. apply below_rank in Hr. lia.
Qed.

Lemma below_linear d a b :
  rtc (par C) d a → rtc (par C) d b →
  rtc (par C) a b ∨ rtc (par C) b a.
Proof.
  intros Ha. revert b. induction Ha as [|d x a Hp Ha IH]; intros b Hb.
  - by left.
  - apply rtc_inv in Hb as [<-|(y & Hp' & Hb)].
    + right. by eapply rtc_l.
    + rewrite (par_inj _ _ _ Hp' Hp) in Hb. by apply IH.
Qed.

Lemma siblings_disjoint v1 v2 k d :
  par C v1 k → par C v2 k → v1 ≠ v2 →
  rtc (par C) d v1 → rtc (par C) d v2 → False.
Proof.
  intros H1 H2 Hne Hd1 Hd2.
  destruct (below_linear d v1 v2 Hd1 Hd2) as [Hr|Hr].
  - apply rtc_inv in Hr as [?|(x & Hp & Hr)]; [done|].
    rewrite (par_inj _ _ _ Hp H1) in Hr.
    by eapply (not_below_child v2 k).
  - apply rtc_inv in Hr as [?|(x & Hp & Hr)]; [done|].
    rewrite (par_inj _ _ _ Hp H2) in Hr.
    by eapply (not_below_child v1 k).
Qed.

(** A stored pointer is a reply to the comment it is stored under. *)
Lemma wf_refs_par m cs k c u :
  wf_refs C m → same_shape C cs → cs !! k = Some c →
  u ∈ refs m (Id c) → par C u k.
Proof.
  intros Hwf Hs Hc Hu.
  destruct (same_shape_lookup C cs k c Hs Hc) as (c0 & Hc0 & Hfl).
  destruct (Hwf (Id c)) as [_ Hk].
  destruct (Hk u Hu) as (Hne & cu & Hcu & Hr).
  exists cu, c0. rewrite <- (flat_Id _ _ Hfl). repeat split; congruence.
Qed.

Lemma par_valid_l v k : par C v k → is_Some (C !! v).
Proof. intros (cv & _ & Hv & _). by eexists. Qed.

(** [expand] only reads the slice at positions below its argument. *)
Lemma expand_local m fuel : ∀ cs1 cs2 v,
  wf_refs C m → same_shape C cs1 → is_Some (C !! v) →
  (∀ d, rtc (par C) d v → cs1 !! d = cs2 !! d) →
  expand fuel m cs1 v = expand fuel m cs2 v.
Proof.
  induction fuel as [|fuel IH]; intros cs1 cs2 v Hwf Hs [c0 Hc0] Hag.
  - simpl. rewrite !list_lookup_total_alt. by rewrite (Hag v).
  - simpl.
    destruct (same_shape_lookup_inv C cs1 v c0 Hs Hc0) as (c & Hc & _).
    assert (cs2 !! v = Some c) as Hc2 by (by rewrite <- (Hag v)).
    rewrite (list_lookup_total_correct _ _ _ Hc).
    rewrite (list_lookup_total_correct _ _ _ Hc2).
    f_equal. apply list_fmap_ext. intros _ u Hu%list_elem_of_lookup_2.
    pose proof (wf_refs_par m cs1 v c u Hwf Hs Hc Hu) as Hp.
    apply IH; [done..|by eapply par_valid_l|].
    intros d Hd. apply Hag. by eapply rtc_r.
Qed.

(** Fuel above the rank is enough for [expand]. *)
Lemma expand_fuel m cs f1 : ∀ f2 v,
  wf_refs C m → same_shape C cs → is_Some (C !! v) →
  (rankAt h C v < f1)%nat → (rankAt h C v < f2)%nat →
  expand f1 m cs v = expand f2 m cs v.
Proof.
  induction f1 as [|f1 IH]; intros f2 v Hwf Hs [c0 Hc0] H1 H2; [lia|].
  destruct f2 as [|f2]; [lia|]. simpl.
  destruct (same_shape_lookup_inv C cs v c0 Hs Hc0) as (c & Hc & _).
  rewrite (list_lookup_total_correct _ _ _ Hc).
  f_equal. apply list_fmap_ext. intros _ u Hu%list_elem_of_lookup_2.
  pose proof (wf_refs_par m cs v c u Hwf Hs Hc Hu) as Hp.
  pose proof (par_rank _ _ Hp).
  apply IH; [done..|by eapply par_valid_l|lia|lia].
Qed.
End replies.

(** ** What one [dig] call does to the slice *)
Section digging.
Context (C : list Comment) (h : Z → nat).
Hypothesis Hacyc : acyclic h C.
Hypothesis Hids : NoDup (Id <$> C).

Lemma attach_fold_spec fuel m k cs c :
  dig_effect C fuel →
  wf_refs C m → same_shape C cs → cs !! k = Some c →
  ∀ vs2 vs1 csp cs',
    NoDup (vs1 ++ vs2) → (∀ v, v ∈ vs1 ++ vs2 → par C v k) →
    same_shape C csp →
    (∀ d, d ≠ k → (∀ v, v ∈ vs1 → ¬ rtc (par C) d v) →
          csp !! d = cs !! d) →
    csp !! k = Some (addReplies c (expand fuel m cs <$> vs1)) →
    foldM (attach (dig fuel m) k) csp vs2 = Some cs' →
    (∀ d, d ≠ k → (∀ v, v ∈ vs1 ++ vs2 → ¬ rtc (par C) d v) →
          cs' !! d = cs !! d) ∧
    cs' !! k = Some (addReplies c (expand fuel m cs <$> (vs1 ++ vs2))).
Proof.
  intros IHd Hwf Hs Hc.
  induction vs2 as [|v vs2 IH]; intros vs1 csp cs' Hnd Hpar Hsp Hfr Hk Hf.
  - injection Hf as <-. rewrite app_nil_r. by split.
  - apply foldM_cons_Some in Hf as (cs2 & Ha & Hf).
    apply attach_Some in Ha as (cs1 & child & parent & H1 & Hv & Hi & ->).
    assert (par C v k) as Hpv.
    { apply Hpar, elem_of_app. right. left. }
    destruct (IHd m v csp cs1 Hwf Hsp H1) as [Hfr1 Hv1].
    pose proof (dig_shape C fuel m v csp cs1 H1 Hsp) as Hs1.
    rewrite Hv in Hv1. injection Hv1 as ->.
    assert (cs1 !! k = csp !! k) as Hk1.
    { apply Hfr1. by apply (not_below_child C h Hacyc). }
    rewrite Hi, Hk in Hk1. injection Hk1 as ->.
    assert (expand fuel m csp v = expand fuel m cs v) as Hexp.
    { apply (expand_local C); [done..|by eapply par_valid_l|].
      intros d Hd. apply Hfr.
      - intros ->. by apply (not_below_child C h Hacyc v k).
      - intros v1 Hv1 Hd1.
        apply (siblings_disjoint C h Hacyc Hids v1 v k d); try done.
        + apply Hpar, elem_of_app. by left.
        + intros ->. apply NoDup_app in Hnd as (_ & Hnd & _).
          apply (Hnd v Hv1). left. }
    rewrite Hexp in Hf.
    rewrite cons_middle, app_assoc in Hnd, Hpar |- *.
    refine (IH (vs1 ++ [v]) _ cs' Hnd Hpar _ _ _ Hf).
    + eapply same_shape_insert; eauto using flat_appendReply.
    + intros d Hdk Hd. rewrite list_lookup_insert_ne by done.
      rewrite Hfr1.
      * apply Hfr; [done|]. intros v1 Hv1. apply Hd, elem_of_app.
        by left.
      * apply Hd, elem_of_app. right. left.
    + rewrite list_lookup_insert_eq by (by eapply lookup_lt_Some).
      by rewrite appendReply_addReplies, fmap_app.
Qed.

Lemma dig_spec fuel : dig_effect C fuel.
Proof.
  induction fuel as [|fuel IH]; intros m k cs cs' Hwf Hs Hd; [done|].
  simpl in Hd. destruct (cs !! k) as [c|] eqn:Hc; simpl in Hd; [|done].
  simpl. rewrite (list_lookup_total_correct _ _ _ Hc).
  destruct (refs m (Id c)) as [|v vs] eqn:E.
  - injection Hd as <-. split; [done|]. by rewrite addReplies_nil.
  - destruct (attach_fold_spec fuel m k cs c IH Hwf Hs Hc
                (v :: vs) [] cs cs') as [Hfr Hk]; try done.
    + rewrite <- E. apply Hwf.
    + intros u Hu. rewrite <- E in Hu. by eapply wf_refs_par.
    + by rewrite addReplies_nil.
    + split; [|done]. intros d Hd'. apply Hfr.
      * intros ->. by apply Hd'.
      * intros u Hu Hdu. apply Hd'. eapply rtc_r; [done|].
        rewrite <- E in Hu. by eapply wf_refs_par.
Qed.
End digging.

(** ** The second loop and the result *)

Lemma filter_positions key cs :
  filter (λ c, ReplyID c = key) cs = (cs !!!.) <$> kids cs key.
Proof.
  induction cs as [|c cs IH] using rev_ind; [done|].
  rewrite filter_app, kids_snoc, fmap_app, IH. f_equal.
  - apply list_fmap_ext. intros _ i Hi%list_elem_of_lookup_2.
    apply elem_of_kids in Hi as (ci & Hi & _).
    apply lookup_lt_Some in Hi. by rewrite lookup_total_app_l.
  - rewrite filter_cons, filter_nil.
    destruct (decide (ReplyID c = key)); [|done]. simpl.
    by rewrite list_lookup_total_middle.
Qed.

Lemma kids_same_shape C cs key : same_shape C cs → kids cs key = kids C key.
Proof.
  intros Hs. unfold kids. rewrite (same_shape_length C cs Hs).
  apply filter_ext_elem. intros i _.
  assert (ReplyID <$> cs !! i = ReplyID <$> C !! i) as ->; [|done].
  apply (f_equal (.!! i)) in Hs. rewrite !list_lookup_fmap in Hs.
  destruct (cs !! i), (C !! i); simpl in *; try done.
  f_equal. apply flat_ReplyID. by apply (inj Some).
Qed.

Section result.
Context (C : list Comment) (h : Z → nat).
Hypothesis Hacyc : acyclic h C.
Hypothesis Hids : NoDup (Id <$> C).

Lemma rankAt_bound i : is_Some (C !! i) → (rankAt h C i ≤ rank_bound h C)%nat.
Proof.
  intros [c Hc]. unfold rankAt.
  rewrite (list_lookup_total_correct _ _ _ Hc).
  apply rank_bound_ge. by eapply list_elem_of_lookup_2.
Qed.

Lemma inline_step_spec fuel m cs k m' cs' c0 :
  (rank_bound h C < fuel)%nat →
  wf_refs C m → same_shape C cs → C !! k = Some c0 →
  inline_step fuel (m, cs) k = Some (m', cs') →
  wf_refs C m' ∧ same_shape C cs' ∧
  refs m' (Id c0) = [] ∧
  (∀ key, refs m key = [] → refs m' key = []) ∧
  (∀ f d, is_Some (C !! d) → (rankAt h C d < f)%nat →
          ¬ (d ≠ k ∧ rtc (par C) d k) →
          expand f m' cs' d = expand f m cs d).
Proof.
  intros Hlt Hwf Hs Hc0 Hstep.
  destruct (same_shape_lookup_inv C cs k c0 Hs Hc0) as (c & Hc & Hfl).
  rewrite (inline_step_dig fuel m cs k c Hc) in Hstep.
  destruct (dig (S fuel) m k cs) as [cs1|] eqn:Hd; [|done].
  simpl in Hstep. injection Hstep as <- <-.
  pose proof (dig_shape C _ _ _ _ _ Hd Hs) as Hs'.
  destruct (dig_spec C h Hacyc Hids (S fuel) m k cs cs1 Hwf Hs Hd)
    as [Hfr Hk].
  pose proof (flat_Id _ _ Hfl) as Hid.
  set (m' := match refs m (Id c) with [] => m | _ => <[Id c := []]> m end).
  assert (∀ key, refs m' key =
                 if decide (Id c = key) then [] else refs m key) as Hm'.
  { intros key. subst m'. destruct (refs m (Id c)) as [|v vs] eqn:E.
    - destruct (decide (Id c = key)) as [<-|]; done.
    - apply refs_clear. }
  assert (wf_refs C m') as Hwf'.
  { subst m'. destruct (refs m (Id c)); [done|]. by apply wf_refs_clear. }
  split; [done|]. split; [done|]. split.
  { rewrite Hm', <- Hid. by rewrite decide_True. }
  split.
  { intros key Hkey. rewrite Hm'. by destruct (decide _). }
  intros f. induction f as [|f IH]; intros d [cd0 Hcd0] Hr Hnb; [lia|].
  destruct (decide (d = k)) as [->|Hdk].
  - transitivity (expand (S fuel) m cs k).
    + simpl expand at 1. rewrite (list_lookup_total_correct _ _ _ Hk).
      assert (Id (expand (S fuel) m cs k) = Id c) as ->.
      { simpl. by rewrite (list_lookup_total_correct _ _ _ Hc). }
      rewrite Hm', decide_True by done. apply addReplies_nil.
    + apply (expand_fuel C h Hacyc); [done..|by eexists| |done].
      pose proof (rankAt_bound k (mk_is_Some _ _ Hc0)). lia.
  - assert (¬ rtc (par C) d k) as Hnr by tauto.
    destruct (same_shape_lookup_inv C cs d cd0 Hs Hcd0) as (cd & Hcd & Hfd).
    assert (cs1 !! d = Some cd) as Hcd1 by (by rewrite Hfr).
    simpl. rewrite (list_lookup_total_correct _ _ _ Hcd).
    rewrite (list_lookup_total_correct _ _ _ Hcd1).
    rewrite Hm', decide_False.
    2:{ intros E. apply Hdk. eapply NoDup_lookup; [exact Hids|..].
        - rewrite list_lookup_fmap, Hcd0. simpl. reflexivity.
        - rewrite list_lookup_fmap, Hc0. simpl.
          by rewrite <- Hid, E, (flat_Id _ _ Hfd). }
    f_equal. apply list_fmap_ext. intros _ u Hu%list_elem_of_lookup_2.
    pose proof (wf_refs_par C m cs d cd u Hwf Hs Hcd Hu) as Hp.
    pose proof (par_rank C h Hacyc _ _ Hp).
    apply IH; [by eapply par_valid_l|lia|].
    intros [Huk Hur]. apply Hnr.
    apply rtc_inv in Hur as [?|(x & Hp' & Hur)]; [done|].
    by rewrite (par_inj C Hids _ _ _ Hp Hp').
Qed.

Lemma root_not_below r k c0 :
  C !! r = Some c0 → ReplyID c0 = 0 → ¬ (r ≠ k ∧ rtc (par C) r k).
Proof.
  intros Hr H0 [Hne Hb].
  apply rtc_inv in Hb as [?|(x & (cv & cj & Hv & _ & Hnz & _) & _)];
    [done|].
  congruence.
Qed.

Lemma inline_loop_spec fuel l :
  (rank_bound h C < fuel)%nat →
  ∀ m cs st,
    wf_refs C m → same_shape C cs → (∀ i, i ∈ l → (i < length C)%nat) →
    foldM (inline_step fuel) (m, cs) l = Some st →
    same_shape C st.2 ∧
    (∀ key, refs m key = [] → refs st.1 key = []) ∧
    (∀ i c0, i ∈ l → C !! i = Some c0 → refs st.1 (Id c0) = []) ∧
    (∀ f r c0, C !! r = Some c0 → ReplyID c0 = 0 →
               (rankAt h C r < f)%nat →
               expand f st.1 st.2 r = expand f m cs r).
Proof.
  intros Hlt. induction l as [|k l IH]; intros m cs st Hwf Hs Hl Hf.
  - injection Hf as <-. simpl. repeat split; try done.
    intros i c0 Hi. by apply elem_of_nil in Hi.
  - apply foldM_cons_Some in Hf as ([m' cs'] & Hstep & Hf).
    destruct (lookup_lt_is_Some_2 C k) as [ck Hck]; [apply Hl; left|].
    destruct (inline_step_spec fuel m cs k m' cs' ck Hlt Hwf Hs Hck Hstep)
      as (Hwf' & Hs' & Hclr & Hmono & Hexp).
    destruct (IH m' cs' st Hwf' Hs') as (Hs2 & Hmono2 & Hclr2 & Hexp2);
      [intros; apply Hl; by right|done|].
    split; [done|]. split; [by auto|]. split.
    + intros i c0 Hi Hc0. apply elem_of_cons in Hi as [->|Hi].
      * apply Hmono2. congruence.
      * by eapply Hclr2.
    + intros f r c0 Hr H0 Hrank.
      rewrite (Hexp2 f r c0 Hr H0 Hrank).
      apply Hexp; [by eexists|done|by eapply root_not_below].
Qed.

(** With enough fuel [ToTree] returns the forest of the root
    positions. *)
Lemma ToTree_forest_of fuel :
  (rank_bound h C < fuel)%nat →
  ToTree fuel C = Some (forest_of (S (rank_bound h C)) C).
Proof.
  intros Hlt. unfold ToTree, forest_of.
  pose proof (wf_refs_index_pass C) as Hwf.
  destruct (index_pass C) as [m tops]; simpl in Hwf. cbn -[expand].
  assert (∀ i, i ∈ seq 0 (length C) → (i < length C)%nat) as Hl.
  { intros i Hi. apply elem_of_seq in Hi. lia. }
  destruct (inline_loop_total C h Hacyc fuel (seq 0 (length C)) m C)
    as [st Hst]; [done..|].
  rewrite Hst. cbn -[expand]. f_equal.
  destruct (inline_loop_spec fuel _ Hlt m C st Hwf eq_refl Hl Hst)
    as (Hs & _ & Hclr & Hexp).
  unfold roots. rewrite filter_positions, (kids_same_shape C _ _ Hs).
  apply list_fmap_ext. intros _ r Hr%list_elem_of_lookup_2.
  apply elem_of_kids in Hr as (c0 & Hr & H0).
  destruct (same_shape_lookup_inv C st.2 r c0 Hs Hr) as (c & Hc & Hfl).
  rewrite <- (Hexp (S (rank_bound h C)) r c0 Hr H0).
  2:{ pose proof (rankAt_bound r (mk_is_Some _ _ Hr)). lia. }
  simpl. rewrite (list_lookup_total_correct _ _ _ Hc).
  rewrite (flat_Id _ _ Hfl), (Hclr r c0); [by rewrite addReplies_nil| |done].
  apply elem_of_seq. apply lookup_lt_Some in Hr. lia.
Qed.
End result.

(** ** Shape of the returned forest *)

Lemma fmap_bind_comm {A B K} (f : B → K) (g : A → list B) (l : list A) :
  f <$> (l ≫= g) = l ≫= (λ u, f <$> g u).
Proof.
  induction l as [|u l IH]; [done|].
  by rewrite !bind_cons, fmap_app, IH.
Qed.

Lemma NoDup_fmap_bind {A B K} (f : B → K) (g : A → list B) (l : list A) :
  NoDup l → (∀ u, u ∈ l → NoDup (f <$> g u)) →
  (∀ u1 u2 x1 x2, u1 ∈ l → u2 ∈ l → x1 ∈ g u1 → x2 ∈ g u2 →
                  f x1 = f x2 → u1 = u2) →
  NoDup (f <$> (l ≫= g)).
Proof.
  intros Hl Hg Hinj. rewrite fmap_bind_comm. apply NoDup_bind; [|done..].
  intros u1 u2 y H1 H2 (x1 & -> & Hx1)%list_elem_of_fmap
    (x2 & E & Hx2)%list_elem_of_fmap.
  by eapply Hinj.
Qed.

Lemma flat_id c : Replies c = [] → flat c = c.
Proof. destruct c; simpl. by intros ->. Qed.

Lemma flat_expand f m cs i : flat (expand f m cs i) = flat (cs !!! i).
Proof. by destruct f. Qed.

Lemma nodes_unfold c : nodes c = c :: (Replies c ≫= nodes).
Proof. by destruct c. Qed.

Section forest.
Context (C : list Comment) (h : Z → nat).
Hypothesis Hacyc : acyclic h C.
Hypothesis Hids : NoDup (Id <$> C).
Hypothesis Hflat : Forall (λ c, Replies c = []) C.

Local Abbreviation m0 := (index_pass C).1.

Lemma input_flat i c : C !! i = Some c → Replies c = [] ∧ flat c = c.
Proof.
  intros Hc. eapply Forall_lookup_1 in Hflat; [|done].
  split; [done|]. by apply flat_id.
Qed.

Lemma refs_index_pass key :
  refs m0 key = if decide (key = 0) then [] else kids C key.
Proof. apply index_pass_spec. Qed.

Lemma expand_static f i c :
  C !! i = Some c →
  expand (S f) m0 C i =
  mkComment (Id c) (Author c) (Text c) (PostedAt c) (ReplyID c)
            (expand f m0 C <$> refs m0 (Id c)).
Proof.
  intros Hc. simpl. rewrite (list_lookup_total_correct _ _ _ Hc).
  unfold addReplies. by rewrite (proj1 (input_flat i c Hc)).
Qed.

Lemma same_id_same_pos i j ci cj :
  C !! i = Some ci → C !! j = Some cj → Id ci = Id cj → i = j.
Proof.
  intros Hi Hj E. eapply NoDup_lookup; [exact Hids|..].
  - by rewrite list_lookup_fmap, Hi.
  - rewrite list_lookup_fmap, Hj. simpl. by rewrite E.
Qed.

(** Every comment of a subtree is the subtree of a position below. *)
Lemma nodes_expand f : ∀ i x,
  is_Some (C !! i) → (rankAt h C i < f)%nat →
  x ∈ nodes (expand f m0 C i) →
  ∃ d f', rtc (par C) d i ∧ is_Some (C !! d) ∧
          (rankAt h C d < f')%nat ∧ x = expand f' m0 C d.
Proof.
  induction f as [|f IH]; intros i x [c Hc] Hr Hx; [lia|].
  rewrite nodes_unfold, (expand_static f i c Hc) in Hx. simpl in Hx.
  apply elem_of_cons in Hx as [->|Hx].
  - exists i, (S f). rewrite (expand_static f i c Hc).
    split; [done|]. split; [by eexists|done].
  - apply list_elem_of_bind in Hx as (y & Hx & Hy).
    apply list_elem_of_fmap in Hy as (u & -> & Hu).
    pose proof (wf_refs_par C m0 C i c u (wf_refs_index_pass C)
                  eq_refl Hc Hu) as Hp.
    pose proof (par_rank C h Hacyc _ _ Hp).
    destruct (IH u x) as (d & f' & Hd & Hv & Hr' & ->);
      [by eapply par_valid_l|lia|done|].
    exists d, f'. split; [by eapply rtc_r|done].
Qed.

Lemma expand_replies f d c :
  C !! d = Some c → (rankAt h C d < f)%nat →
  flat (expand f m0 C d) = c ∧
  flat <$> Replies (expand f m0 C d) = repliesTo C (Id c).
Proof.
  intros Hc Hr. destruct f as [|f]; [lia|].
  rewrite (expand_static f d c Hc). split.
  - by apply input_flat in Hc as [_ Hc].
  - simpl. rewrite <- list_fmap_compose, refs_index_pass.
    unfold repliesTo. destruct (decide (Id c = 0)); [done|].
    rewrite filter_positions. apply list_fmap_ext.
    intros _ u Hu%list_elem_of_lookup_2.
    apply elem_of_kids in Hu as (cu & Hu & _). simpl.
    rewrite flat_expand, (list_lookup_total_correct _ _ _ Hu).
    by apply input_flat in Hu as [_ Hu].
Qed.

Lemma nodes_ids_NoDup f : ∀ i,
  is_Some (C !! i) → (rankAt h C i < f)%nat →
  NoDup (Id <$> nodes (expand f m0 C i)).
Proof.
  induction f as [|f IH]; intros i [c Hc] Hr; [lia|].
  rewrite nodes_unfold, fmap_cons, (expand_static f i c Hc). simpl.
  rewrite list_fmap_bind.
  assert (∀ u, u ∈ refs m0 (Id c) →
               par C u i ∧ is_Some (C !! u) ∧ (rankAt h C u < f)%nat) as Hk.
  { intros u Hu.
    pose proof (wf_refs_par C m0 C i c u (wf_refs_index_pass C)
                  eq_refl Hc Hu) as Hp.
    pose proof (par_rank C h Hacyc _ _ Hp).
    split; [done|]. split; [by eapply par_valid_l|lia]. }
  assert (∀ u x, u ∈ refs m0 (Id c) → x ∈ nodes (expand f m0 C u) →
                 ∃ d cd, rtc (par C) d u ∧ C !! d = Some cd ∧
                         Id x = Id cd) as Hbelow.
  { intros u x Hu Hx. destruct (Hk u Hu) as (Hp & Hv & Hru).
    destruct (nodes_expand f u x Hv Hru Hx)
      as (d & f' & Hd & [cd Hcd] & Hr' & ->).
    exists d, cd. split; [done|]. split; [done|].
    destruct (expand_replies f' d cd Hcd Hr') as [<- _]. done. }
  apply NoDup_cons. split.
  - intros (x & E & Hx)%list_elem_of_fmap.
    apply list_elem_of_bind in Hx as (u & Hx & Hu).
    destruct (Hbelow u x Hu Hx) as (d & cd & Hd & Hcd & Hid).
    destruct (Hk u Hu) as (Hp & _).
    assert (i = d) as <- by (eapply same_id_same_pos; eauto; congruence).
    by apply (not_below_child C h Hacyc u i).
  - apply NoDup_fmap_bind.
    + destruct (wf_refs_index_pass C (Id c)) as [Hnd _]. done.
    + intros u Hu. destruct (Hk u Hu) as (_ & Hv & Hru). by apply IH.
    + intros u1 u2 x1 x2 Hu1 Hu2 Hx1 Hx2 E.
      destruct (Hbelow u1 x1 Hu1 Hx1) as (d1 & c1 & Hd1 & Hc1 & Hi1).
      destruct (Hbelow u2 x2 Hu2 Hx2) as (d2 & c2 & Hd2 & Hc2 & Hi2).
      assert (d1 = d2) as <-
        by (eapply same_id_same_pos; eauto; congruence).
      destruct (decide (u1 = u2)) as [|Hne]; [done|]. exfalso.
      destruct (Hk u1 Hu1) as (Hp1 & _). destruct (Hk u2 Hu2) as (Hp2 & _).
      by apply (siblings_disjoint C h Hacyc Hids u1 u2 i d1).
Qed.

Lemma forest_nodes_expand F x :
  (rank_bound h C < F)%nat →
  x ∈ forest_nodes (forest_of F C) →
  ∃ r cr d f', C !! r = Some cr ∧ ReplyID cr = 0 ∧ rtc (par C) d r ∧
               is_Some (C !! d) ∧ (rankAt h C d < f')%nat ∧
               x = expand f' m0 C d.
Proof.
  intros HF Hx. unfold forest_nodes, forest_of in Hx.
  rewrite list_fmap_bind in Hx.
  apply list_elem_of_bind in Hx as (r & Hx & Hr). simpl in Hx.
  apply elem_of_kids in Hr as (cr & Hr & H0).
  pose proof (rankAt_bound C h r (mk_is_Some _ _ Hr)).
  destruct (nodes_expand F r x) as (d & f' & Hd & Hv & Hr' & ->);
    [by eexists|lia|done|].
  by exists r, cr, d, f'.
Qed.

Lemma forest_ids_NoDup F :
  (rank_bound h C < F)%nat →
  NoDup (Id <$> forest_nodes (forest_of F C)).
Proof.
  intros HF. unfold forest_nodes, forest_of. rewrite list_fmap_bind.
  assert (∀ r, r ∈ kids C 0 → ∃ cr, C !! r = Some cr ∧ ReplyID cr = 0 ∧
                                    (rankAt h C r < F)%nat) as Hk.
  { intros r (cr & Hr & H0)%elem_of_kids. exists cr.
    pose proof (rankAt_bound C h r (mk_is_Some _ _ Hr)).
    split; [done|]. split; [done|lia]. }
  assert (∀ r x, r ∈ kids C 0 → x ∈ nodes (expand F m0 C r) →
                 ∃ d cd, rtc (par C) d r ∧ C !! d = Some cd ∧
                         Id x = Id cd) as Hbelow.
  { intros r x Hr Hx. destruct (Hk r Hr) as (cr & Hcr & _ & Hrk).
    destruct (nodes_expand F r x (mk_is_Some _ _ Hcr) Hrk Hx)
      as (d & f' & Hd & [cd Hcd] & Hr' & ->).
    exists d, cd. split; [done|]. split; [done|].
    destruct (expand_replies f' d cd Hcd Hr') as [<- _]. done. }
  apply NoDup_fmap_bind.
  - apply NoDup_kids.
  - intros r Hr. destruct (Hk r Hr) as (cr & Hcr & _ & Hrk).
    apply nodes_ids_NoDup; [by eexists|done].
  - intros r1 r2 x1 x2 Hr1 Hr2 Hx1 Hx2 E.
    destruct (Hbelow r1 x1 Hr1 Hx1) as (d1 & c1 & Hd1 & Hc1 & Hi1).
    destruct (Hbelow r2 x2 Hr2 Hx2) as (d2 & c2 & Hd2 & Hc2 & Hi2).
    assert (d1 = d2) as <-
      by (eapply same_id_same_pos; eauto; congruence).
    destruct (Hk r1 Hr1) as (cr1 & Hcr1 & H01 & _).
    destruct (Hk r2 Hr2) as (cr2 & Hcr2 & H02 & _).
    destruct (decide (r1 = r2)) as [|Hne]; [done|]. exfalso.
    destruct (below_linear C Hids d1 r1 r2 Hd1 Hd2) as [Hb|Hb].
    + by apply (root_not_below C r1 r2 cr1 Hcr1 H01).
    + by apply (root_not_below C r2 r1 cr2 Hcr2 H02).
Qed.

Lemma forest_roots F : flat <$> forest_of F C = roots C.
Proof.
  unfold forest_of, roots. rewrite <- list_fmap_compose, filter_positions.
  apply list_fmap_ext. intros _ r Hr%list_elem_of_lookup_2.
  apply elem_of_kids in Hr as (cr & Hr & _). simpl.
  rewrite flat_expand, (list_lookup_total_correct _ _ _ Hr).
  by apply input_flat in Hr as [_ Hr].
Qed.
End forest.

(** ** The claims about [ToTree] *)

(** C1, as amended: for every flat list of comments [C] with pairwise
    distinct ids and acyclic reply references, [ToTree] returns a forest
    [out] such that: its roots are exactly the comments of [C] with
    [reply_id = 0], in input order (so there are as many roots as such
    comments, the number the first loop counts); no id occurs twice among
    the comments of the forest; every comment of the forest is a comment of
    [C] and its replies are exactly the comments of [C] that reply to it,
    in input order; and a comment whose [reply_id] names no comment of [C]
    does not occur in the forest. *)
Theorem ToTree_forest (C : list Comment) (h : Z → nat) :
  NoDup (Id <$> C) →
  Forall (λ c, Replies c = []) C →
  acyclic h C →
  ∃ out,
    (∀ fuel, (rank_bound h C < fuel)%nat → ToTree fuel C = Some out) ∧
    flat <$> out = roots C ∧
    length out = (index_pass C).2 ∧
    NoDup (Id <$> forest_nodes out) ∧
    (∀ x, x ∈ forest_nodes out →
          flat x ∈ C ∧ flat <$> Replies x = repliesTo C (Id x)) ∧
    (∀ c, c ∈ C → ReplyID c ≠ 0 → ReplyID c ∉ Id <$> C →
          Id c ∉ Id <$> forest_nodes out).
Proof.
  intros Hids Hflat Hacyc.
  set (F := S (rank_bound h C)).
  assert (rank_bound h C < F)%nat as HF by (subst F; lia).
  exists (forest_of F C).
  pose proof (forest_roots C Hflat F) as Hroots.
  split; [intros fuel Hlt; by apply ToTree_forest_of|].
  split; [done|]. split.
  { destruct (index_pass_spec C) as [_ ->].
    by rewrite <- Hroots, length_fmap. }
  split; [by eapply forest_ids_NoDup|]. split.
  - intros x Hx.
    destruct (forest_nodes_expand C h Hacyc Hflat F x HF Hx)
      as (r & cr & d & f' & _ & _ & _ & [cd Hcd] & Hr & ->).
    destruct (expand_replies C h Hflat f' d cd Hcd Hr) as [Hfl Hrep].
    split.
    + rewrite Hfl. by eapply list_elem_of_lookup_2.
    + rewrite Hrep. by rewrite <- Hfl.
  - intros c Hc Hnz Horph (x & Hid & Hx)%list_elem_of_fmap.
    destruct (forest_nodes_expand C h Hacyc Hflat F x HF Hx)
      as (r & cr & d & f' & Hcr & H0 & Hd & [cd Hcd] & Hr & ->).
    destruct (expand_replies C h Hflat f' d cd Hcd Hr) as [Hfl _].
    apply list_elem_of_lookup in Hc as [i Hi].
    assert (Id (expand f' (index_pass C).1 C d) = Id cd) as Hidx
      by (by rewrite <- Hfl).
    assert (i = d) as ->
      by (eapply (same_id_same_pos C Hids); eauto; congruence).
    assert (c = cd) as -> by congruence.
    apply rtc_inv in Hd as [->|(y & (cv & cy & Hv & Hy & _ & E) & _)].
    + congruence.
    + apply Horph. apply list_elem_of_fmap. exists cy.
      split; [congruence|]. by eapply list_elem_of_lookup_2.
Qed.

(** The amended C1 applies to the input of the repository's test, where it
    yields the forest the test expects. *)
Lemma ToTree_forest_witness :
  ∃ out,
    (∀ fuel, (rank_bound test_rank test_in < fuel)%nat →
             ToTree fuel test_in = Some out) ∧
    flat <$> out = roots test_in ∧
    length out = (index_pass test_in).2 ∧
    NoDup (Id <$> forest_nodes out) ∧
    (∀ x, x ∈ forest_nodes out →
          flat x ∈ test_in ∧
          flat <$> Replies x = repliesTo test_in (Id x)) ∧
    (∀ c, c ∈ test_in → ReplyID c ≠ 0 → ReplyID c ∉ Id <$> test_in →
          Id c ∉ Id <$> forest_nodes out).
Proof.
  apply (ToTree_forest test_in test_rank).
  - apply (bool_decide_unpack _). vm_compute. exact I.
  - repeat constructor.
  - unfold acyclic. repeat constructor; simpl; lia.
Defined.

(** C1 as stated fails without distinct ids: on [twin_in] the one comment
    with id 2 is returned twice, once under each comment with id 1. *)
Lemma ToTree_twin_duplicates :
  ∃ out, ToTree 2 twin_in = Some out ∧
         out = [node 5 0 [node 1 5 [node 2 1 []]; node 1 5 [node 2 1 []]]] ∧
         forest_nodes out !! 2%nat = Some (node 2 1 []) ∧
         forest_nodes out !! 4%nat = Some (node 2 1 []).
Proof. eexists. repeat split; vm_compute; reflexivity. Qed.

(** On the input of [Test_ToTree] a recursion budget of 4 or more gives
    the value the test expects. *)
Lemma ToTree_test_in (n : nat) : ToTree (4 + n) test_in = Some test_want.
Proof.
  assert (acyclic test_rank test_in) as Hacyc.
  { unfold acyclic. repeat constructor; simpl; lia. }
  assert (NoDup (Id <$> test_in)) as Hids.
  { apply (bool_decide_unpack _). vm_compute. exact I. }
  rewrite (ToTree_forest_of test_in test_rank Hacyc Hids).
  - vm_compute. reflexivity.
  - vm_compute. lia.
Qed.

(** C2, as amended: on the input of [Test_ToTree], [ToTree] returns the
    four roots 1, 2, 3, 10 where root 1 has children
    [{4 -> [{7 -> [{14}]}]}, {11}], root 2 has [{5 -> [{8}]}, {12}], root 3
    has [{6 -> [{9}]}, {13}] and root 10 is a leaf: the value the test
    expects, for every recursion budget of at least 4. *)
Theorem ToTree_test (n : nat) : ToTree (4 + n) test_in = Some test_want.
Proof. apply ToTree_test_in. Qed.


(** C2 as stated fails: no recursion budget makes [ToTree] return the
    forest of the scenario, in which comment 14 hangs directly under
    comment 4 and comment 7 is missing. *)
Lemma ToTree_test_not_scenario :
  ¬ ∃ fuel, ToTree fuel test_in = Some scenario_forest.
Proof.
  intros [fuel H].
  destruct (decide (fuel < 4)%nat) as [Hlt|Hge].
  - do 4 (destruct fuel as [|fuel]; [vm_compute in H; discriminate|]). lia.
  - replace fuel with (4 + (fuel - 4))%nat in H by lia.
    rewrite ToTree_test_in in H. vm_compute in H. discriminate.
Qed.

(** C10, as amended: [ToTree] terminates on every input whose reply
    references are acyclic: a recursion budget above the largest rank is
    enough for it to return. *)
Theorem ToTree_terminates (C : list Comment) (h : Z → nat) (fuel : nat) :
  acyclic h C → (rank_bound h C < fuel)%nat → is_Some (ToTree fuel C).
Proof. intros Hacyc Hlt. by apply (ToTree_total C h Hacyc). Qed.

(** The amended C10 applies to [twin_in], whose ids are not distinct. *)
Lemma ToTree_terminates_witness : is_Some (ToTree 3 twin_in).
Proof.
  apply (ToTree_terminates twin_in twin_rank 3).
  - unfold acyclic. repeat constructor; simpl; lia.
  - vm_compute. lia.
Defined.

(** C10 as stated fails: on a two-comment reply cycle no recursion budget
    is enough, [ToTree] never returns. *)
Lemma ToTree_cycle_diverges : ¬ ∃ fuel, is_Some (ToTree fuel cyclic_in).
Proof. intros [fuel [out H]]. by rewrite ToTree_cyclic in H. Qed.

End DomainFacts.

(** * Properties of the pubDate decoder *)
Module StorageFacts.
Import Storage.

Section decoder.
Context (parse : string → string → Z + string).

Lemma tryLayouts_first ls1 l ls2 s t pt err :
  Forall (λ l', ∃ e, parse l' s = inr e) ls1 →
  parse l s = inl t →
  tryLayouts parse (ls1 ++ l :: ls2) s pt err = (t, None).
Proof.
  intros Hfail Hok. revert pt err.
  induction Hfail as [|l' ls1 [e He] _ IH]; intros pt err; simpl.
  - by rewrite Hok.
  - rewrite He. apply IH.
Qed.

Lemma tryLayouts_none ls s pt err :
  Forall (λ l', ∃ e, parse l' s = inr e) ls →
  tryLayouts parse ls s pt err =
  match last ls with
  | Some l => (zeroTimeUnix, match parse l s with
                             | inr e => Some e
                             | inl _ => None
                             end)
  | None => (pt, err)
  end.
Proof.
  intros Hfail. revert pt err.
  induction Hfail as [|l ls [e He] Hls IH]; intros pt err; [done|].
  cbn [tryLayouts]. rewrite He, IH. destruct ls as [|l2 ls].
  - simpl. by rewrite He.
  - rewrite last_cons_cons.
    destruct (last (l2 :: ls)) eqn:E; [done|]. by apply last_None in E.
Qed.
End decoder.

(** C4, as amended: decoding a pubDate tries the layouts RFC1123Z,
    RFC1123, Unix date, "02 Jan 2006 15:04:05 -0700",
    "Mon, 2 Jan 2006 15:04:05 -0700", ANSIC, RFC850, RFC822, RFC822Z in
    this order; the first layout that parses determines the result, and the
    item gets that time as its pub_date; when every layout fails the
    decoder returns the error of the last layout, leaves Go's zero time
    (not 0) behind and the item is not assigned. *)
Theorem pubDate_layouts (parse : string → string → Z + string)
    (strip : string → string) (raw : rawItem) (i : Item) (t0 : Z) :
  layouts =
    ["Mon, 02 Jan 2006 15:04:05 -0700"; "Mon, 02 Jan 2006 15:04:05 MST";
     "Mon Jan _2 15:04:05 MST 2006"; "02 Jan 2006 15:04:05 -0700";
     "Mon, 2 Jan 2006 15:04:05 -0700"; "Mon Jan _2 15:04:05 2006";
     "Monday, 02-Jan-06 15:04:05 MST"; "02 Jan 06 15:04 MST";
     "02 Jan 06 15:04 -0700"] ∧
  (∀ ls1 l ls2 t,
     layouts = ls1 ++ l :: ls2 →
     Forall (λ l', ∃ e, parse l' (raw_pubDate raw) = inr e) ls1 →
     parse l (raw_pubDate raw) = inl t →
     unix_UnmarshalXML parse (inl (raw_pubDate raw)) t0 = (t, None) ∧
     Item_UnmarshalXML parse strip raw i =
       (mkItem 0 (raw_title raw) t (strip (raw_description raw))
               (raw_link raw), None)) ∧
  (Forall (λ l', ∃ e, parse l' (raw_pubDate raw) = inr e) layouts →
   ∃ e, parse RFC822Z (raw_pubDate raw) = inr e ∧
        unix_UnmarshalXML parse (inl (raw_pubDate raw)) t0 =
          (zeroTimeUnix, Some e) ∧
        Item_UnmarshalXML parse strip raw i = (i, Some e)).
Proof.
  split; [reflexivity|]. split.
  - intros ls1 l ls2 t Hl Hfail Hok.
    assert (unix_UnmarshalXML parse (inl (raw_pubDate raw)) t0 = (t, None))
      as Hu.
    { unfold unix_UnmarshalXML. rewrite Hl. by apply tryLayouts_first. }
    split; [done|]. unfold Item_UnmarshalXML.
    unfold unix_UnmarshalXML in *. by rewrite Hu.
  - intros Hfail.
    pose proof (tryLayouts_none parse layouts (raw_pubDate raw)
                  zeroTimeUnix None Hfail) as Hn.
    assert (∃ e, parse RFC822Z (raw_pubDate raw) = inr e) as [e He].
    { eapply Forall_forall in Hfail; [exact Hfail|].
      unfold layouts. repeat (try (by left); right). }
    exists e. split; [done|].
    assert (last layouts = Some RFC822Z) as Hl by reflexivity.
    rewrite Hl, He in Hn.
    split; [exact Hn|]. unfold Item_UnmarshalXML, unix_UnmarshalXML.
    by rewrite Hn.
Qed.

(** The amended C4 on a parser that accepts only the fourth layout. *)
Lemma pubDate_layouts_witness :
  unix_UnmarshalXML acceptFourth (inl "01 Aug 2022 09:01:40 +0000") 0 =
    (1659344500, None).
Proof.
  refine (proj1 (proj1 (proj2
            (pubDate_layouts acceptFourth id
               (mkRawItem "t" "01 Aug 2022 09:01:40 +0000" "d" "l")
               zeroItem 0))
            [RFC1123Z; RFC1123; UnixDate] "02 Jan 2006 15:04:05 -0700"
            ["Mon, 2 Jan 2006 15:04:05 -0700"; ANSIC; RFC850; RFC822; RFC822Z]
            1659344500 eq_refl _ eq_refl)).
  repeat constructor; by eexists.
Defined.

(** C4 as stated fails: when every layout rejects the text, no item with
    pub_date 0 is decoded; the decoder returns an error, the value it
    leaves behind is -62135596800 and the destination item keeps its old
    pub_date. *)
Lemma pubDate_total_failure :
  unix_UnmarshalXML rejectAll (inl "yesterday") 0 =
    (-62135596800, Some "cannot parse as 02 Jan 06 15:04 -0700") ∧
  Item_UnmarshalXML rejectAll id (mkRawItem "t" "yesterday" "d" "l")
    (mkItem 1 "sample item" 5555555 "sample discription" "https://test.com") =
    (mkItem 1 "sample item" 5555555 "sample discription" "https://test.com",
     Some "cannot parse as 02 Jan 06 15:04 -0700").
Proof. split; reflexivity. Qed.

End StorageFacts.

(** * Properties of the statement builder *)
Module PostgresFacts.
Import Storage Postgres.

Lemma append_nil_r (s : string) : s +:+ "" = s.
Proof.
  induction s as [|a s IH]; [done|].
  change (String a (s +:+ "") = String a s). by rewrite IH.
Qed.

Lemma append_assoc (a b c : string) : (a +:+ b) +:+ c = a +:+ b +:+ c.
Proof.
  induction a as [|x a IH]; [done|].
  change (String x ((a +:+ b) +:+ c) = String x (a +:+ b +:+ c)).
  by rewrite IH.
Qed.

Lemma wrap64_small z : - 2 ^ 63 ≤ z < 2 ^ 63 → wrap64 z = z.
Proof. intros Hz. unfold wrap64. rewrite Z.mod_small; lia. Qed.

Lemma length_pos_ne_nil {A} (l : list A) : (0 < length l)%nat ↔ l ≠ [].
Proof. destruct l; simpl; split; (done || lia). Qed.

(** C5, as amended: the statement built for [Items] ends with no LIMIT
    and no OFFSET clause when page < 1; with LIMIT 10 alone, and no OFFSET
    clause, when page = 1; and with LIMIT 10 OFFSET (page-1)*10, both bound
    as positional parameters, when 2 <= page and (page-1)*10 fits Go's
    int. *)
Theorem itemsStmt_limit_offset (f : Filter) :
  let pre := itemsStmtOrdered f in
  let n := length (args pre) in
  (Page f < 1 → itemsStmt f = pre) ∧
  (Page f = 1 →
   itemsStmt f =
     mkStatement (sql pre +:+ " LIMIT $" +:+ pretty (S n))
                 (args pre ++ [ArgInt 10])) ∧
  (2 ≤ Page f ≤ 922337203685477581 →
   itemsStmt f =
     mkStatement ((sql pre +:+ " LIMIT $" +:+ pretty (S n))
                    +:+ " OFFSET $" +:+ pretty (S (S n)))
                 ((args pre ++ [ArgInt 10]) ++ [ArgInt ((Page f - 1) * 10)])).
Proof.
  intros pre n. unfold itemsStmt. fold (itemsStmtOrdered f). fold pre.
  unfold addLimitOffsetClause, calcLimitOffset, PageSize, placeholder.
  split; [|split]; intros Hp.
  - rewrite decide_True by done.
    destruct (decide (0 < 0)) as [?|_]; [lia|done].
  - rewrite decide_False by lia. rewrite Hp.
    change (wrap64 (wrap64 (1 - 1) * 10)) with 0.
    destruct (decide (0 < 10)) as [_|?]; [|lia].
    destruct (decide (0 < 0)) as [?|_]; [lia|done].
  - rewrite decide_False by lia.
    rewrite (wrap64_small (Page f - 1)) by lia.
    rewrite (wrap64_small ((Page f - 1) * 10)) by lia.
    destruct (decide (0 < 10)) as [_|?]; [|lia].
    destruct (decide (0 < (Page f - 1) * 10)) as [_|?]; [|lia]. simpl.
    rewrite length_app. simpl. by rewrite Nat.add_1_r.
Qed.

(** The amended C5 on page 3. *)
Lemma itemsStmt_limit_offset_witness :
  itemsStmt page3 =
    mkStatement
      ("SELECT id, title, description, pub_date, link FROM news"
         +:+ " ORDER BY pub_date DESC LIMIT $1 OFFSET $2")
      [ArgInt 10; ArgInt 20].
Proof.
  apply (proj2 (proj2 (itemsStmt_limit_offset page3))). simpl. lia.
Defined.

(** C5 as stated fails at page = 1: the statement ends with LIMIT $1 and
    has the single argument 10; no OFFSET clause is emitted. *)
Lemma itemsStmt_page1_no_offset :
  itemsStmt page1 =
    mkStatement
      "SELECT id, title, description, pub_date, link FROM news ORDER BY pub_date DESC LIMIT $1"
      [ArgInt 10].
Proof. vm_compute. reflexivity. Qed.

(** C6: the ORDER BY clause is "ORDER BY pub_date DESC" when sort_by is
    unset; "ORDER BY ts_rank(title_search, to_tsquery('russian', $n)) DESC"
    with the search string bound as argument n when sort_by is rank and
    title_search is non-empty, and in the statement of [Items] that string
    is the one the WHERE clause binds first; otherwise "ORDER BY column
    DESC" with date -> pub_date, title -> title, rank -> rank, so rank with
    an empty title_search gives "ORDER BY rank DESC". *)
Theorem addOrderBy_clause (f : Filter) (stmt : statement) :
  (SortBy f = Empty →
   addOrderBy f stmt =
     mkStatement (sql stmt +:+ " ORDER BY pub_date DESC") (args stmt)) ∧
  (SortBy f = Rank → TitleSearch f ≠ [] →
   addOrderBy f stmt =
     mkStatement
       (sql stmt +:+ " ORDER BY ts_rank(title_search, to_tsquery('russian', $"
          +:+ pretty (S (length (args stmt))) +:+ ")) DESC")
       (args stmt ++ [ArgString (searchStr f)]) ∧
   args (itemsStmtOrdered f) !! 0%nat = Some (ArgString (searchStr f)) ∧
   last (args (itemsStmtOrdered f)) = Some (ArgString (searchStr f))) ∧
  (SortBy f = ByDate →
   addOrderBy f stmt =
     mkStatement (sql stmt +:+ " ORDER BY pub_date DESC") (args stmt)) ∧
  (SortBy f = Title →
   addOrderBy f stmt =
     mkStatement (sql stmt +:+ " ORDER BY title DESC") (args stmt)) ∧
  (SortBy f = Rank → TitleSearch f = [] →
   addOrderBy f stmt =
     mkStatement (sql stmt +:+ " ORDER BY rank DESC") (args stmt)).
Proof.
  unfold addOrderBy.
  split; [|split; [|split; [|split]]].
  - intros ->. done.
  - intros HR Hts. apply length_pos_ne_nil in Hts.
    assert (∀ st, addOrderBy f st =
              mkStatement
                (sql st +:+ " ORDER BY ts_rank(title_search, to_tsquery('russian', $"
                   +:+ pretty (S (length (args st))) +:+ ")) DESC")
                (args st ++ [ArgString (searchStr f)])) as Ho.
    { intros st. unfold addOrderBy. rewrite HR.
      rewrite decide_False by done. by rewrite decide_True. }
    split; [apply Ho|].
    unfold itemsStmtOrdered. rewrite Ho. simpl. split.
    + unfold addWhereClause, whereSearch. rewrite decide_True by done.
      unfold whereEndDate, whereDate; simpl.
      by repeat (case_decide; simpl).
    + by rewrite last_snoc.
  - intros ->. done.
  - intros ->. done.
  - intros -> Hts. simpl. rewrite decide_False; [done|].
    rewrite Hts. simpl. lia.
Qed.

(** C6 on a filter that sorts by rank with two search terms. *)
Lemma addOrderBy_clause_witness :
  itemsStmtOrdered rankGo =
    mkStatement
      ("SELECT id, title, description, pub_date, link FROM news"
         +:+ " WHERE title_search @@ to_tsquery('russian', $1)"
         +:+ " ORDER BY ts_rank(title_search, to_tsquery('russian', $2)) DESC")
      [ArgString "go&db&!x&!y"; ArgString "go&db&!x&!y"].
Proof.
  unfold itemsStmtOrdered.
  rewrite (proj1 (proj1 (proj2 (addOrderBy_clause rankGo _)) eq_refl
                    ltac:(discriminate))).
  reflexivity.
Defined.

(** C7: with a non-empty title_search the WHERE clause starts with
    "title_search @@ to_tsquery('russian', $n)" and binds the terms joined
    by "&", followed exactly when exclude is non-empty by "&!" and the
    exclude terms joined by "&!"; with an empty title_search only the date
    clauses are emitted and no string is bound. *)
Theorem addWhereClause_search (f : Filter) (stmt : statement) :
  (TitleSearch f ≠ [] →
   addWhereClause f stmt =
     whereEndDate f (whereDate f
       (mkStatement
          (sql stmt +:+ " WHERE title_search @@ to_tsquery('russian', $"
             +:+ pretty (S (length (args stmt))) +:+ ")")
          (args stmt ++
             [ArgString
                (String.concat "&" (TitleSearch f) +:+
                   (if decide (Exclude f = []) then ""
                    else "&!" +:+ String.concat "&!" (Exclude f)))]))) ∧
   args (addWhereClause f stmt) !! length (args stmt) =
     Some (ArgString
             (String.concat "&" (TitleSearch f) +:+
                (if decide (Exclude f = []) then ""
                 else "&!" +:+ String.concat "&!" (Exclude f))))) ∧
  (TitleSearch f = [] →
   addWhereClause f stmt = whereEndDate f (whereDate f stmt) ∧
   ∀ a, a ∈ drop (length (args stmt)) (args (addWhereClause f stmt)) →
        ∃ n, a = ArgInt n).
Proof.
  assert (searchStr f =
          String.concat "&" (TitleSearch f) +:+
            (if decide (Exclude f = []) then ""
             else "&!" +:+ String.concat "&!" (Exclude f))) as Hq.
  { unfold searchStr. destruct (Exclude f) as [|x xs].
    - by rewrite decide_False by (simpl; lia).
    - rewrite !decide_True by (done || simpl; lia).
      by rewrite append_assoc. }
  unfold addWhereClause. split.
  - intros Hts%length_pos_ne_nil. unfold whereSearch.
    rewrite decide_True by done. unfold placeholder. rewrite Hq.
    split; [done|].
    unfold whereEndDate, whereDate; simpl.
    repeat (case_decide; simpl);
      rewrite <- ?app_assoc; simpl; by rewrite list_lookup_middle.
  - intros Hts. unfold whereSearch. rewrite Hts. simpl. split; [done|].
    intros a. unfold whereEndDate, whereDate.
    repeat (case_decide; simpl); rewrite <- ?app_assoc, ?drop_app_length;
      rewrite ?drop_all; intros Ha;
      repeat (apply elem_of_cons in Ha as [->|Ha]; [by eexists|]);
      by apply elem_of_nil in Ha.
Qed.

(** C7 on a filter with two search terms and two excluded terms. *)
Lemma addWhereClause_search_witness :
  args (addWhereClause rankGo (mkStatement "SELECT" [])) !! 0%nat =
    Some (ArgString "go&db&!x&!y").
Proof.
  apply (proj2 (proj1 (addWhereClause_search rankGo (mkStatement "SELECT" []))
                  ltac:(discriminate))).
Defined.

End PostgresFacts.

(** * Properties of the news API *)
Module NewsAPIFacts.
Import Storage NewsAPI.

(** ** GET /news/{id} *)

Lemma itemHandler_found ParseInt dbItem s id it :
  ParseInt s = Some id → dbItem id = (it, None) →
  itemHandler ParseInt dbItem s = (200, JSONItem it).
Proof. intros Hs Hd. unfold itemHandler. by rewrite Hs, Hd. Qed.

Lemma itemHandler_no_rows ParseInt q s id :
  ParseInt s = Some id → q id = Postgres.NoRows →
  itemHandler ParseInt (Postgres.Item q) s = (404, JSONString "not found").
Proof. intros Hs Hq. unfold itemHandler, Postgres.Item. by rewrite Hs, Hq. Qed.

(** With the postgres store the 500 branch of [itemHandler] is dead:
    whatever the query does, the status is 200 or 404. *)
Lemma itemHandler_postgres_status ParseInt q s :
  (itemHandler ParseInt (Postgres.Item q) s).1 = 200 ∨
  (itemHandler ParseInt (Postgres.Item q) s).1 = 404.
Proof.
  unfold itemHandler, Postgres.Item.
  destruct (ParseInt s) as [id|]; [|by right].
  destruct (q id); simpl; auto.
Qed.

(** C8 fails on the code: when the query for an id fails inside the store
    (here: the connection is refused), [Postgres.Item] returns the zero
    item with the error and [itemHandler] answers 404 "not found", not
    500. *)
Theorem itemHandler_store_failure_is_404 :
  itemHandler GoLib.Atoi
    (Postgres.Item (λ _, Postgres.Failure "connection refused")) "1" =
  (404, JSONString "not found").
Proof. reflexivity. Qed.

(** ** GET /news: the date parameters *)


Section dates.
Context (Atoi : string → option Z) (parse : string → string → Z + string).








End dates.




End NewsAPIFacts.

(** * Properties of the comments service *)
Module CommentsFacts.
Import Comments.

(** The handler answers 400 exactly when the body does not decode or the
    comment has no news id, whatever its reply id. *)
Lemma handleCommentCreate_400 create decoded :
  (handleCommentCreate create decoded).1 = 400 ↔
  match decoded with
  | inr _ => True
  | inl c => NewsID c = 0
  end.
Proof.
  unfold handleCommentCreate. destruct decoded as [c|e]; [|done].
  destruct (decide (NewsID c = 0)) as [H0|Hne]; [done|].
  destruct (create c) as [id [e|]]; simpl; split; (done || lia).
Qed.

(** The store derives the news id of a reply without one from the comment
    it replies to. *)
Lemma createComment_derives d c news :
  NewsID c = 0 → ReplyID c ≠ 0 → 0 < PostedAt c →
  newsIdOf d (ReplyID c) = Some news →
  ∃ d' id, createComment d c = inl (d', id) ∧
           NewsID <$> last (comments d') = Some news.
Proof.
  intros H0 Hr Hts Hn. unfold createComment, createComment_stmt.
  rewrite decide_True by done. simpl. rewrite Hn.
  rewrite decide_True by done. eexists _, _. split; [done|].
  simpl. by rewrite last_snoc.
Qed.

(** C3 fails on the code: the fourth comment of the store's own test
    (news_id = 0, reply_id = 2) is answered 400 by [handleCommentCreate],
    although [Create] accepts it, assigns id 4 and stores it with the news
    id 1 of comment 2. *)
Theorem handleCommentCreate_rejects_reply :
  handleCommentCreate (λ c, (Create testDb c).2) (inl testcom4) =
    (400, JSONError ErrNoNewsID) ∧
  (Create testDb testcom4).2 = (4, None) ∧
  last (comments (Create testDb testcom4).1) =
    Some (mkComment 4 1 2 1659947258
            "this is test comment as reply to john comment"
            (mkAuthor 4 "gary")).
Proof. repeat split; vm_compute; reflexivity. Qed.

End CommentsFacts.

(** * Further properties of [ToTree] *)
Module DomainMore.
Import Domain DomainAux DomainFacts.

(** ** Inputs without replies *)

Lemma refs_no_replies C key :
  Forall (λ c, ReplyID c = 0) C → refs (index_pass C).1 key = [].
Proof.
  intros Hall. destruct (index_pass_spec C) as [-> _].
  destruct (decide (key = 0)) as [|Hne]; [done|].
  destruct (kids C key) as [|v vs] eqn:E; [done|]. exfalso.
  assert (v ∈ kids C key) as Hv by (rewrite E; left).
  apply elem_of_kids in Hv as (c & Hc & Hr).
  eapply Forall_lookup_1 in Hall; [|exact Hc]. simpl in Hall. congruence.
Qed.

Lemma inline_loop_no_refs fuel l : ∀ m cs,
  (∀ key, refs m key = []) → (∀ i, i ∈ l → (i < length cs)%nat) →
  foldM (inline_step fuel) (m, cs) l = Some (m, cs).
Proof.
  induction l as [|i l IH]; intros m cs Hm Hl; [done|].
  apply foldM_cons_Some. exists (m, cs). split.
  - destruct (lookup_lt_is_Some_2 cs i) as [c Hc]; [apply Hl; left|].
    unfold inline_step. rewrite Hc. simpl. by rewrite Hm.
  - apply IH; [done|]. intros j Hj. apply Hl. by right.
Qed.

Lemma roots_all C : Forall (λ c, ReplyID c = 0) C → roots C = C.
Proof.
  unfold roots. induction 1 as [|c C Hc _ IH]; [done|].
  rewrite filter_cons, decide_True by done. by rewrite IH.
Qed.

(** A list in which no comment is a reply comes back unchanged, whatever
    the recursion budget: [dig] is never called. *)
Theorem ToTree_no_replies (C : list Comment) (fuel : nat) :
  Forall (λ c, ReplyID c = 0) C → ToTree fuel C = Some C.
Proof.
  intros Hall. unfold ToTree.
  pose proof (refs_no_replies C) as Hm.
  destruct (index_pass C) as [m tops]. simpl in Hm.
  rewrite inline_loop_no_refs.
  - simpl. by rewrite roots_all.
  - intros key. by apply Hm.
  - intros i Hi. apply elem_of_seq in Hi. lia.
Qed.

Lemma ToTree_no_replies_witness :
  ToTree 0 [node 3 0 []; node 1 0 [node 9 9 []]] =
    Some [node 3 0 []; node 1 0 [node 9 9 []]].
Proof. apply ToTree_no_replies. repeat constructor. Defined.

(** ** The roots of any result *)

Lemma inline_loop_shape C fuel l : ∀ m cs st,
  foldM (inline_step fuel) (m, cs) l = Some st →
  same_shape C cs → same_shape C st.2.
Proof.
  induction l as [|i l IH]; intros m cs st Hf Hs.
  - by injection Hf as <-.
  - apply foldM_cons_Some in Hf as ([m' cs'] & Hstep & Hf).
    apply (IH m' cs' st Hf).
    destruct (cs !! i) as [c|] eqn:Hc.
    + rewrite (inline_step_dig fuel m cs i c Hc) in Hstep.
      destruct (dig (S fuel) m i cs) as [cs1|] eqn:Hd; [|done].
      injection Hstep as <- <-. by eapply dig_shape.
    + unfold inline_step in Hstep. by rewrite Hc in Hstep.
Qed.

Lemma roots_same_shape C cs :
  same_shape C cs → flat <$> roots cs = flat <$> roots C.
Proof.
  intros Hs. unfold roots.
  rewrite !filter_positions, (kids_same_shape C cs 0 Hs).
  rewrite <- !list_fmap_compose. apply list_fmap_ext.
  intros _ r Hr%list_elem_of_lookup_2.
  apply elem_of_kids in Hr as (c0 & Hr & _).
  destruct (same_shape_lookup_inv C cs r c0 Hs Hr) as (c & Hc & Hfl).
  simpl. rewrite (list_lookup_total_correct _ _ _ Hc).
  by rewrite (list_lookup_total_correct _ _ _ Hr).
Qed.

(** Whatever the input (ids may repeat), when [ToTree] returns, the roots
    it returns are the comments with [reply_id = 0], in input order and
    differing from the input only in their replies; their number is the
    count [tops] of the first loop. *)
Theorem ToTree_roots (C out : list Comment) (fuel : nat) :
  ToTree fuel C = Some out →
  flat <$> out = flat <$> roots C ∧ length out = (index_pass C).2.
Proof.
  unfold ToTree. intros H.
  destruct (index_pass_spec C) as [_ Htops]. rewrite Htops.
  destruct (index_pass C) as [m tops].
  destruct (foldM (inline_step fuel) (m, C) (seq 0 (length C)))
    as [st|] eqn:Hf; [|done].
  injection H as <-.
  pose proof (inline_loop_shape C fuel _ m C st Hf eq_refl) as Hs.
  pose proof (roots_same_shape C st.2 Hs) as Hr.
  split; [done|].
  apply (f_equal length) in Hr. by rewrite !length_fmap in Hr.
Qed.

Lemma ToTree_roots_witness :
  flat <$> [node 5 0 [node 1 5 [node 2 1 []]; node 1 5 [node 2 1 []]]] =
    flat <$> roots twin_in ∧
  length [node 5 0 [node 1 5 [node 2 1 []]; node 1 5 [node 2 1 []]]] =
    (index_pass twin_in).2.
Proof. apply (ToTree_roots twin_in _ 2). vm_compute. reflexivity. Defined.

(** ** Reply cycles *)

Lemma tc_inv_r {A} (R : relation A) x z :
  tc R x z → ∃ y, rtc R x y ∧ R y z.
Proof.
  induction 1 as [x z HR|x y' z HR _ (y & Hr & Hy)].
  - by exists x.
  - exists y. split; [by eapply rtc_l|done].
Qed.

Lemma attach_fold_fail C digf i y vs : ∀ cs,
  (∀ cs', same_shape C cs' → digf y cs' = None) →
  (∀ v cs cs', digf v cs = Some cs' → same_shape C cs → same_shape C cs') →
  y ∈ vs → same_shape C cs →
  foldM (attach digf i) cs vs = None.
Proof.
  induction vs as [|v vs IH]; intros cs Hy Hsh Hin Hs.
  - by apply elem_of_nil in Hin.
  - cbn [foldM]. destruct (attach digf i cs v) as [cs2|] eqn:Ha; [|done].
    apply attach_Some in Ha as (cs1 & child & parent & H1 & Hv & Hi & ->).
    apply elem_of_cons in Hin as [->|Hin].
    + by rewrite Hy in H1.
    + apply IH; [done..|].
      eapply same_shape_insert; eauto using flat_appendReply.
Qed.

Section cycles.
Context (C : list Comment).
Hypothesis Hids : NoDup (Id <$> C).

(** Every position on a cycle is replied to from a position on a cycle. *)
Lemma cycle_pred x :
  tc (par C) x x → ∃ y, par C y x ∧ tc (par C) y y.
Proof.
  intros Hx. destruct (tc_inv_r _ _ _ Hx) as (y & Hr & Hp).
  exists y. split; [done|]. eapply tc_rtc_r; [by apply tc_once|done].
Qed.

Lemma keeps_cycles_index_pass : keeps_cycles C (index_pass C).1.
Proof.
  intros x y c _ _ (cy & cx & Hy & Hx & Hne & E) Hc.
  destruct (index_pass_spec C) as [-> _]. simplify_eq.
  rewrite decide_False by congruence.
  apply elem_of_kids. by exists cy.
Qed.

Lemma dig_cycle m fuel : ∀ x cs,
  keeps_cycles C m → same_shape C cs → tc (par C) x x →
  dig fuel m x cs = None.
Proof.
  induction fuel as [|fuel IH]; intros x cs Hm Hs Hx; [done|].
  simpl. destruct (cs !! x) as [c|] eqn:Hc; [|done]. simpl.
  destruct (same_shape_lookup C cs x c Hs Hc) as (c0 & Hc0 & Hfl).
  destruct (cycle_pred x Hx) as (y & Hp & Hy).
  pose proof (Hm x y c0 Hx Hy Hp Hc0) as Hin.
  rewrite <- (flat_Id _ _ Hfl) in Hin.
  destruct (refs m (Id c)) as [|v vs] eqn:E; [by apply elem_of_nil in Hin|].
  apply (attach_fold_fail C (dig fuel m) x y (v :: vs)); try done.
  - intros cs' Hs'. by apply IH.
  - intros v' cs1 cs2 H1 H2. by eapply dig_shape.
Qed.

Lemma inline_step_cycle fuel m cs x :
  keeps_cycles C m → same_shape C cs → tc (par C) x x →
  inline_step fuel (m, cs) x = None.
Proof.
  intros Hm Hs Hx.
  destruct (cs !! x) as [c|] eqn:Hc.
  - rewrite (inline_step_dig fuel m cs x c Hc).
    by rewrite (dig_cycle m (S fuel) x cs).
  - unfold inline_step. by rewrite Hc.
Qed.

Lemma inline_loop_cycle fuel l : ∀ m cs x,
  keeps_cycles C m → same_shape C cs → tc (par C) x x → x ∈ l →
  foldM (inline_step fuel) (m, cs) l = None.
Proof.
  induction l as [|k l IH]; intros m cs x Hm Hs Hx Hin.
  - by apply elem_of_nil in Hin.
  - cbn [foldM].
    destruct (inline_step fuel (m, cs) k) as [[m' cs']|] eqn:Hk; [|done].
    apply elem_of_cons in Hin as [->|Hin].
    { by rewrite inline_step_cycle in Hk. }
    destruct (cs !! k) as [c|] eqn:Hc;
      [|unfold inline_step in Hk; by rewrite Hc in Hk].
    rewrite (inline_step_dig fuel m cs k c Hc) in Hk.
    destruct (dig (S fuel) m k cs) as [cs1|] eqn:Hd; [|done].
    injection Hk as <- <-.
    apply (IH _ cs1 x); [|by eapply dig_shape|done..].
    destruct (refs m (Id c)) as [|v vs] eqn:E; [done|].
    intros x' y' c' Hx' Hy' Hp Hc'. rewrite refs_clear.
    destruct (decide (Id c = Id c')) as [Heq|Hne]; [|by apply (Hm x' y' c')].
    exfalso.
    destruct (same_shape_lookup C cs k c Hs Hc) as (c0 & Hc0 & Hfl).
    assert (k = x') as ->.
    { eapply NoDup_lookup; [exact Hids|..].
      - by rewrite list_lookup_fmap, Hc0.
      - rewrite list_lookup_fmap, Hc'. simpl.
        by rewrite <- (flat_Id _ _ Hfl), Heq. }
    by rewrite (dig_cycle m (S fuel) x' cs) in Hd.
Qed.
End cycles.

(** With distinct ids, a cycle among the reply references (a self-reply
    included) makes [ToTree] diverge: no recursion budget is enough. *)
Theorem ToTree_cycle (C : list Comment) (i : nat) (fuel : nat) :
  NoDup (Id <$> C) → tc (par C) i i → ToTree fuel C = None.
Proof.
  intros Hids Hi. unfold ToTree.
  pose proof (keeps_cycles_index_pass C) as Hm.
  destruct (index_pass C) as [m tops]. simpl in Hm.
  rewrite (inline_loop_cycle C Hids fuel _ m C i); [done..|].
  apply tc_inv_r in Hi as (y & _ & (_ & ci & _ & Hci & _)).
  apply elem_of_seq. apply lookup_lt_Some in Hci. lia.
Qed.

Lemma ToTree_cycle_witness : ToTree 7 [node 1 0 []; node 4 4 []] = None.
Proof.
  apply (ToTree_cycle _ 1%nat).
  - apply (bool_decide_unpack _). vm_compute. exact I.
  - apply tc_once. by exists (node 4 4 []), (node 4 4 []).
Defined.

(** ** Which comments reach the forest *)

Lemma Comment_Forall_ind (P : Comment → Prop) :
  (∀ c, Forall P (Replies c) → P c) → ∀ c, P c.
Proof.
  intros H. fix IH 1. intros [id a t p r rs]. apply H. simpl.
  induction rs as [|x rs IHrs]; constructor; [apply IH|exact IHrs].
Qed.

Lemma nodes_self c : c ∈ nodes c.
Proof. rewrite nodes_unfold. left. Qed.

Lemma nodes_trans c : ∀ x y, x ∈ nodes c → y ∈ nodes x → y ∈ nodes c.
Proof.
  induction c as [c IH] using Comment_Forall_ind. intros x y Hx Hy.
  rewrite nodes_unfold in Hx. apply elem_of_cons in Hx as [->|Hx]; [done|].
  apply list_elem_of_bind in Hx as (r & Hx & Hr).
  rewrite nodes_unfold. right. apply list_elem_of_bind. exists r.
  split; [|done]. eapply Forall_forall in IH; [|exact Hr]. by eapply IH.
Qed.

Lemma forest_nodes_reply f x y :
  x ∈ forest_nodes f → y ∈ Replies x → y ∈ forest_nodes f.
Proof.
  unfold forest_nodes. intros (c & Hx & Hc)%list_elem_of_bind Hy.
  apply list_elem_of_bind. exists c. split; [|done].
  apply (nodes_trans c x y Hx). rewrite nodes_unfold. right.
  apply list_elem_of_bind. exists y. split; [apply nodes_self|done].
Qed.

Section reach.
Context (C : list Comment) (h : Z → nat) (F : nat).
Hypothesis Hacyc : acyclic h C.
Hypothesis Hids : NoDup (Id <$> C).
Hypothesis Hflat : Forall (λ c, Replies c = []) C.
Hypothesis HF : (rank_bound h C < F)%nat.

Local Abbreviation m0 := (index_pass C).1.

(** Every comment of the forest is the full subtree of a position below
    a root. *)
Lemma forest_nodes_below x :
  x ∈ forest_nodes (forest_of F C) →
  ∃ r cr d cd, C !! r = Some cr ∧ ReplyID cr = 0 ∧ rtc (par C) d r ∧
               C !! d = Some cd ∧ x = expand F m0 C d.
Proof.
  intros Hx.
  destruct (forest_nodes_expand C h Hacyc Hflat F x HF Hx)
    as (r & cr & d & f' & Hr & H0 & Hd & [cd Hcd] & Hrk & ->).
  exists r, cr, d, cd. repeat (split; [done|]).
  apply (expand_fuel C h Hacyc); [apply wf_refs_index_pass|done|by eexists|
                                  done|].
  pose proof (rankAt_bound C h d (mk_is_Some _ _ Hcd)). lia.
Qed.

(** The full subtree of every position below a root is in the forest. *)
Lemma below_in_forest d r cr :
  C !! r = Some cr → ReplyID cr = 0 → rtc (par C) d r →
  expand F m0 C d ∈ forest_nodes (forest_of F C).
Proof.
  intros Hr H0 Hd. induction Hd as [r|d y r Hp Hyr IH].
  - unfold forest_nodes, forest_of. apply list_elem_of_bind.
    exists (expand F m0 C r). split; [apply nodes_self|].
    apply list_elem_of_fmap. exists r. split; [done|].
    apply elem_of_kids. by exists cr.
  - apply (forest_nodes_reply _ (expand F m0 C y)); [by apply IH|].
    destruct Hp as (cd & cy & Hcd & Hcy & Hne & E).
    destruct F as [|f]; [lia|].
    rewrite (expand_static C Hflat f y cy Hcy). cbn [Replies].
    apply list_elem_of_fmap. exists d. split.
    + apply (expand_fuel C h Hacyc); [apply wf_refs_index_pass|done|
                                        by eexists| |].
      * pose proof (rankAt_bound C h d (mk_is_Some _ _ Hcd)). lia.
      * assert (par C d y) as Hp by (by exists cd, cy).
        pose proof (par_rank C h Hacyc _ _ Hp).
        pose proof (rankAt_bound C h y (mk_is_Some _ _ Hcy)). lia.
    + rewrite (refs_index_pass C), decide_False by congruence.
      apply elem_of_kids. by exists cd.
Qed.
End reach.

(** For a flat list with distinct ids and acyclic references, a comment is
    in the returned forest exactly when it is a root or the comment it
    replies to is in the forest: every comment whose chain of reply ids
    leads to a root is kept, and every other one is dropped together with
    all replies below it. *)
Theorem ToTree_reach (C : list Comment) (h : Z → nat) (fuel : nat) :
  NoDup (Id <$> C) →
  Forall (λ c, Replies c = []) C →
  acyclic h C →
  (rank_bound h C < fuel)%nat →
  ∃ out, ToTree fuel C = Some out ∧
    ∀ c, c ∈ C →
      (Id c ∈ Id <$> forest_nodes out ↔
       ReplyID c = 0 ∨ ReplyID c ∈ Id <$> forest_nodes out).
Proof.
  intros Hids Hflat Hacyc Hlt.
  set (F := S (rank_bound h C)).
  assert (rank_bound h C < F)%nat as HF by (subst F; lia).
  exists (forest_of F C). split; [by apply ToTree_forest_of|].
  assert (∀ d cd, C !! d = Some cd →
                  Id (expand F (index_pass C).1 C d) = Id cd) as Hid.
  { intros d cd Hcd. change (Id ?x) with (Id (flat x)) at 1.
    rewrite flat_expand. by rewrite (list_lookup_total_correct _ _ _ Hcd). }
  intros c Hc. apply list_elem_of_lookup in Hc as [i Hi]. split.
  - intros (x & E & Hx)%list_elem_of_fmap.
    destruct (forest_nodes_below C h F Hacyc Hflat HF x Hx)
      as (r & cr & d & cd & Hr & H0 & Hd & Hcd & ->).
    rewrite (Hid d cd Hcd) in E.
    assert (i = d) as -> by (by eapply (same_id_same_pos C Hids)).
    assert (c = cd) as <- by congruence.
    apply rtc_inv in Hd as [->|(y & Hp & Hyr)].
    + left. congruence.
    + right. apply list_elem_of_fmap.
      exists (expand F (index_pass C).1 C y). split.
      * destruct Hp as (cd' & cy & Hcd' & Hcy & _ & E').
        rewrite (Hid y cy Hcy). congruence.
      * by eapply (below_in_forest C h F Hacyc Hflat HF y r cr).
  - intros Hcase. apply list_elem_of_fmap.
    exists (expand F (index_pass C).1 C i). split; [by rewrite (Hid i c)|].
    destruct (decide (ReplyID c = 0)) as [H0|Hne].
    + by eapply (below_in_forest C h F Hacyc Hflat HF i i c).
    + destruct Hcase as [?|(x & E & Hx)%list_elem_of_fmap]; [done|].
      destruct (forest_nodes_below C h F Hacyc Hflat HF x Hx)
        as (r & cr & d & cd & Hr & H0 & Hd & Hcd & ->).
      rewrite (Hid d cd Hcd) in E.
      eapply (below_in_forest C h F Hacyc Hflat HF i r cr); [done..|].
      eapply rtc_l; [|exact Hd]. by exists c, cd.
Qed.

Lemma ToTree_reach_witness :
  ∃ out, ToTree 4 test_in = Some out ∧
    ∀ c, c ∈ test_in →
      (Id c ∈ Id <$> forest_nodes out ↔
       ReplyID c = 0 ∨ ReplyID c ∈ Id <$> forest_nodes out).
Proof.
  apply (ToTree_reach test_in test_rank 4).
  - apply (bool_decide_unpack _). vm_compute. exact I.
  - repeat constructor.
  - unfold acyclic. repeat constructor; simpl; lia.
  - vm_compute. lia.
Defined.

End DomainMore.

(** * Further properties of the statement builder and the news table *)
Module PostgresMore.
Import Storage Postgres PostgresStore PostgresFacts.

(** ** The builder only appends *)

Lemma statement_eta st : mkStatement (sql st) (args st) = st.
Proof. by destruct st. Qed.

Lemma appends_id_branch st :
  st = mkStatement (sql st +:+ "") (args st ++ []).
Proof. by rewrite append_nil_r, app_nil_r, statement_eta. Qed.

Lemma appends_comp g1 g2 :
  appends g1 → appends g2 → appends (λ st, g2 (g1 st)).
Proof.
  intros H1 H2 n. destruct (H1 n) as (w1 & a1 & E1).
  destruct (H2 (n + length a1)%nat) as (w2 & a2 & E2).
  exists (w1 +:+ w2), (a1 ++ a2). intros st Hn.
  rewrite (E1 st Hn), E2; simpl.
  - by rewrite append_assoc, app_assoc.
  - rewrite length_app. lia.
Qed.

Lemma whereSearch_appends f : appends (whereSearch f).
Proof.
  intros n. unfold whereSearch, placeholder. case_decide.
  - eexists _, _. intros st ->. reflexivity.
  - exists "", []. intros st _. apply appends_id_branch.
Qed.

Lemma whereDate_appends f : appends (whereDate f).
Proof.
  intros n. unfold whereDate, placeholder. case_decide.
  - destruct (decide (0 < n)%nat).
    + eexists _, _. intros st ->. rewrite decide_True by done. reflexivity.
    + eexists _, _. intros st ->. rewrite decide_False by done. reflexivity.
  - exists "", []. intros st _. apply appends_id_branch.
Qed.

Lemma whereEndDate_appends f : appends (whereEndDate f).
Proof.
  intros n. unfold whereEndDate, placeholder. case_decide.
  - destruct (decide (0 < n)%nat).
    + eexists _, _. intros st ->. rewrite decide_True by done. reflexivity.
    + exists "", [ArgInt (Value (EndDate f))]. intros st ->.
      rewrite decide_False by done. by rewrite append_nil_r.
  - exists "", []. intros st _. apply appends_id_branch.
Qed.

Lemma addWhereClause_appends f : appends (addWhereClause f).
Proof.
  unfold addWhereClause.
  apply (appends_comp (λ st, whereDate f (whereSearch f st)) (whereEndDate f));
    [|apply whereEndDate_appends].
  apply (appends_comp (whereSearch f) (whereDate f));
    [apply whereSearch_appends|apply whereDate_appends].
Qed.

Lemma addOrderBy_appends f : appends (addOrderBy f).
Proof.
  intros n. unfold addOrderBy, placeholder. repeat case_decide.
  - eexists _, []. intros st _. by rewrite app_nil_r.
  - eexists _, _. intros st ->. reflexivity.
  - eexists _, []. intros st _. by rewrite app_nil_r.
Qed.

Lemma addLimitOffsetClause_appends f : appends (addLimitOffsetClause f).
Proof.
  intros n. unfold addLimitOffsetClause, placeholder.
  destruct (calcLimitOffset (Page f) PageSize) as [l o].
  destruct (decide (0 < l)), (decide (0 < o)); simpl.
  - eexists _, _. intros st Hn.
    rewrite length_app, Hn, append_assoc, <- app_assoc. reflexivity.
  - eexists _, _. intros st ->. reflexivity.
  - eexists _, _. intros st ->. reflexivity.
  - exists "", []. intros st _. apply appends_id_branch.
Qed.

(** [CountItems] and [Items] filter alike: the WHERE text of the two
    statements is the same and the arguments of the count are the first
    arguments of the query, whatever the filter; ORDER BY, LIMIT and OFFSET
    only add to the end. *)
Theorem countStmt_itemsStmt (f : Filter) :
  ∃ w a rest a',
    countStmt f = mkStatement ("SELECT COUNT(id) FROM news" +:+ w) a ∧
    itemsStmt f =
      mkStatement
        ("SELECT id, title, description, pub_date, link FROM news"
           +:+ w +:+ rest)
        (a ++ a').
Proof.
  destruct (addWhereClause_appends f 0%nat) as (w & a & Hw).
  pose proof (appends_comp _ _ (addOrderBy_appends f)
                (addLimitOffsetClause_appends f) (0 + length a)%nat)
    as (rest & a' & Hr).
  exists w, a, rest, a'. unfold countStmt, itemsStmt. split.
  - by rewrite Hw.
  - rewrite (Hw (mkStatement _ [])) by done. rewrite Hr; [|done].
    simpl. by rewrite append_assoc.
Qed.

(** ** Bound values never reach the SQL text *)

Lemma whereSearch_alike f g st1 st2 :
  same_clauses f g → (sql st1 = sql st2 ∧ length (args st1) = length (args st2)) →
  (sql (whereSearch f st1) = sql (whereSearch g st2) ∧ length (args (whereSearch f st1)) = length (args (whereSearch g st2))).
Proof.
  intros (_ & _ & _ & _ & Hts & _) [Hs Hn].
  unfold whereSearch, placeholder.
  assert ((0 < length (TitleSearch f))%nat ↔
          (0 < length (TitleSearch g))%nat) as Hlen.
  { rewrite !length_pos_ne_nil. tauto. }
  destruct (decide (0 < length (TitleSearch f))%nat),
           (decide (0 < length (TitleSearch g))%nat); simpl; try tauto.
  by rewrite !length_app, Hs, Hn.
Qed.

Lemma whereDate_alike f g st1 st2 :
  same_clauses f g → (sql st1 = sql st2 ∧ length (args st1) = length (args st2)) →
  (sql (whereDate f st1) = sql (whereDate g st2) ∧ length (args (whereDate f st1)) = length (args (whereDate g st2))).
Proof.
  intros (_ & _ & Hop & _ & _ & Hd & _) [Hs Hn].
  unfold whereDate, placeholder. rewrite Hop, Hs, Hn.
  destruct (decide (0 < Value (Date f))), (decide (0 < Value (Date g)));
    simpl; try tauto.
  by rewrite !length_app, Hn.
Qed.

Lemma whereEndDate_alike f g st1 st2 :
  same_clauses f g → (sql st1 = sql st2 ∧ length (args st1) = length (args st2)) →
  (sql (whereEndDate f st1) = sql (whereEndDate g st2) ∧ length (args (whereEndDate f st1)) = length (args (whereEndDate g st2))).
Proof.
  intros (_ & _ & _ & Hop & _ & Hd & He) [Hs Hn].
  unfold whereEndDate, placeholder. rewrite Hop, Hs, Hn.
  destruct (decide (0 < Value (Date f) ∧ 0 < Value (EndDate f))),
           (decide (0 < Value (Date g) ∧ 0 < Value (EndDate g)));
    simpl; try tauto.
  by rewrite !length_app, Hn.
Qed.

Lemma addOrderBy_alike f g st1 st2 :
  same_clauses f g → (sql st1 = sql st2 ∧ length (args st1) = length (args st2)) →
  (sql (addOrderBy f st1) = sql (addOrderBy g st2) ∧ length (args (addOrderBy f st1)) = length (args (addOrderBy g st2))).
Proof.
  intros (Hsort & _ & _ & _ & Hts & _) [Hs Hn].
  unfold addOrderBy, placeholder. rewrite <- Hsort, Hs, Hn.
  assert ((0 < length (TitleSearch f))%nat ↔
          (0 < length (TitleSearch g))%nat) as Hlen.
  { rewrite !length_pos_ne_nil. tauto. }
  destruct (decide (SortBy f = Empty)); [done|].
  destruct (decide (SortBy f = Rank ∧ (0 < length (TitleSearch f))%nat)),
           (decide (SortBy f = Rank ∧ (0 < length (TitleSearch g))%nat));
    simpl; try tauto.
  by rewrite !length_app, Hn.
Qed.

Lemma addLimitOffsetClause_alike f g st1 st2 :
  same_clauses f g → (sql st1 = sql st2 ∧ length (args st1) = length (args st2)) →
  (sql (addLimitOffsetClause f st1) = sql (addLimitOffsetClause g st2) ∧ length (args (addLimitOffsetClause f st1)) = length (args (addLimitOffsetClause g st2))).
Proof.
  intros (_ & Hpage & _) [Hs Hn].
  unfold addLimitOffsetClause, placeholder. rewrite <- Hpage.
  destruct (calcLimitOffset (Page f) PageSize) as [l o].
  destruct (decide (0 < l)), (decide (0 < o)); simpl;
    rewrite ?length_app, ?Hs, ?Hn; done.
Qed.

(** The text of the [Items] statement depends on the filter only through
    the clauses it asks for: two filters with the same sort, page and
    operators, the same emptiness of title_search and the same signs of
    the dates give the same SQL text with as many placeholders, whatever
    the search terms, the excluded terms and the dates are.  These reach
    the database as bound arguments only. *)
Theorem itemsStmt_text (f g : Filter) :
  same_clauses f g →
  sql (itemsStmt f) = sql (itemsStmt g) ∧
  length (args (itemsStmt f)) = length (args (itemsStmt g)).
Proof.
  intros H. unfold itemsStmt, addWhereClause.
  apply addLimitOffsetClause_alike, addOrderBy_alike, whereEndDate_alike,
    whereDate_alike, whereSearch_alike; done.
Qed.

Lemma itemsStmt_text_witness :
  sql (itemsStmt rankGo) =
    sql (itemsStmt (mkFilter ["'; DROP TABLE news; --"] Rank 1
                             noTime noTime ["x' OR '1'='1"])).
Proof.
  apply (itemsStmt_text rankGo). unfold same_clauses. simpl.
  repeat split; (done || lia).
Defined.

(** ** Dates *)

(** A date filter whose value is not positive is ignored, and with it the
    end date; with both values positive both clauses are emitted, the end
    date's always with AND (its own test of the argument count cannot
    fail there). *)
Theorem addWhereClause_dates (f : Filter) (stmt : statement) :
  (Value (Date f) ≤ 0 → addWhereClause f stmt = whereSearch f stmt) ∧
  (0 < Value (Date f) → 0 < Value (EndDate f) →
   let s := whereSearch f stmt in
   addWhereClause f stmt =
     mkStatement
       ((sql s +:+
           (if decide (0 < length (args s))%nat then " AND pub_date "
            else " WHERE pub_date ")
           +:+ Operator (Date f) +:+ " $" +:+ pretty (S (length (args s))))
          +:+ " AND pub_date " +:+ Operator (EndDate f) +:+ " $"
          +:+ pretty (S (S (length (args s)))))
       ((args s ++ [ArgInt (Value (Date f))])
          ++ [ArgInt (Value (EndDate f))])).
Proof.
  unfold addWhereClause, whereEndDate, whereDate, placeholder. split.
  - intros Hd. rewrite !decide_False by lia. done.
  - intros Hd He. cbv zeta. generalize (whereSearch f stmt). intros s.
    rewrite (decide_True (P := 0 < Value (Date f))) by done.
    rewrite (decide_True (P := 0 < Value (Date f) ∧ 0 < Value (EndDate f)))
      by done.
    cbn [args sql].
    rewrite (decide_True (P := (0 < length (args s ++ _))%nat))
      by (rewrite length_app; simpl; lia).
    rewrite length_app, Nat.add_1_r, !append_assoc. reflexivity.
Qed.

Lemma addWhereClause_dates_witness :
  addWhereClause
    (mkFilter [] Empty 1 (mkTimeFilter 1659344500 ">")
              (mkTimeFilter 1659517300 "<=") [])
    (mkStatement "SELECT" []) =
  mkStatement "SELECT WHERE pub_date > $1 AND pub_date <= $2"
              [ArgInt 1659344500; ArgInt 1659517300].
Proof.
  refine (proj2 (addWhereClause_dates _ (mkStatement "SELECT" [])) _ _);
    simpl; lia.
Defined.

(** ** Pages *)

(** Every page from 1 on is bounded: LIMIT 10 is bound right after the
    arguments of the ordered statement, also when the offset computation
    wraps around; an OFFSET argument may follow, nothing else. *)
Theorem itemsStmt_limit (f : Filter) :
  1 ≤ Page f →
  ∃ rest, args (itemsStmt f) = args (itemsStmtOrdered f) ++ ArgInt 10 :: rest ∧
          (length rest ≤ 1)%nat.
Proof.
  intros Hp. unfold itemsStmt. fold (itemsStmtOrdered f).
  unfold addLimitOffsetClause, calcLimitOffset, PageSize.
  rewrite decide_False by lia.
  destruct (decide (0 < 10)) as [_|?]; [|lia].
  case_decide; simpl.
  - eexists [_]. rewrite <- app_assoc. split; [reflexivity|simpl; lia].
  - exists []. split; [reflexivity|simpl; lia].
Qed.

Lemma itemsStmt_limit_witness :
  ∃ rest,
    args (itemsStmt (mkFilter [] Empty 9223372036854775807 noTime noTime [])) =
      args (itemsStmtOrdered
              (mkFilter [] Empty 9223372036854775807 noTime noTime []))
        ++ ArgInt 10 :: rest ∧
    (length rest ≤ 1)%nat.
Proof. apply itemsStmt_limit. simpl. lia. Defined.

(** ** Excluded words *)

(** Excluded words filter nothing on their own: without search words the
    statements of [Items] and [CountItems] are those of the same filter
    with no excluded words. *)
Theorem exclude_alone_ignored (f : Filter) :
  TitleSearch f = [] →
  itemsStmt f =
    itemsStmt (mkFilter [] (SortBy f) (Page f) (Date f) (EndDate f) []) ∧
  countStmt f =
    countStmt (mkFilter [] (SortBy f) (Page f) (Date f) (EndDate f) []).
Proof.
  destruct f as [exc sortBy page date endDate ts]. simpl. intros ->.
  unfold itemsStmt, countStmt, addWhereClause.
  assert (∀ e st, whereSearch (mkFilter e sortBy page date endDate []) st = st)
    as Hws.
  { reflexivity. }
  assert (∀ e st, addOrderBy (mkFilter e sortBy page date endDate []) st =
                  addOrderBy (mkFilter [] sortBy page date endDate []) st)
    as Hob.
  { intros e st. by destruct sortBy. }
  rewrite !Hws. split; [|done]. by rewrite Hob.
Qed.

Lemma exclude_alone_ignored_witness :
  itemsStmt (mkFilter ["x"; "y"] Rank 1 noTime noTime []) =
    itemsStmt (mkFilter [] Rank 1 noTime noTime []).
Proof.
  refine (proj1 (exclude_alone_ignored
                   (mkFilter ["x"; "y"] Rank 1 noTime noTime []) _)).
  reflexivity.
Defined.

End PostgresMore.

(** * The news table *)
Module StoreFacts.
Import Storage Postgres PostgresStore.

Lemma head_filter_elem {A} (P : A → Prop) `{!∀ x, Decision (P x)}
    (l : list A) (x : A) :
  head (filter P l) = Some x → x ∈ l ∧ P x.
Proof.
  intros Hh. apply head_Some_elem_of in Hh.
  by apply list_elem_of_filter in Hh as [? ?].
Qed.

Lemma head_filter_None {A} (P : A → Prop) `{!∀ x, Decision (P x)}
    (l : list A) :
  head (filter P l) = None ↔ ∀ x, x ∈ l → ¬ P x.
Proof.
  rewrite head_None. split.
  - intros Hh x Hx HP.
    assert (x ∈ filter P l) as Hin by by apply list_elem_of_filter.
    rewrite Hh in Hin. by apply elem_of_nil in Hin.
  - intros Hh. destruct (filter P l) as [|x k] eqn:E; [done|].
    assert (x ∈ filter P l) as Hin by (rewrite E; left).
    apply list_elem_of_filter in Hin as [HP Hx]. by destruct (Hh x).
Qed.

Lemma NoDup_fmap_elem_inj {A B} (f : A → B) (l : list A) (x y : A) :
  NoDup (f <$> l) → x ∈ l → y ∈ l → f x = f y → x = y.
Proof.
  intros Hnd Hx Hy Hf.
  apply list_elem_of_lookup in Hx as [i Hi].
  apply list_elem_of_lookup in Hy as [j Hj].
  assert (i = j) as ->; [|congruence].
  apply (NoDup_lookup (f <$> l) i j (f x)); [done|..];
    rewrite list_lookup_fmap; [by rewrite Hi|by rewrite Hj, Hf].
Qed.

(** A unique key finds its row. *)
Lemma head_filter_key {A B} `{EqDecision B} (f : A → B) (l : list A) (x : A) :
  NoDup (f <$> l) → x ∈ l → head (filter (λ r, f r = f x) l) = Some x.
Proof.
  intros Hnd Hx.
  destruct (head (filter (λ r, f r = f x) l)) as [y|] eqn:E.
  - apply head_filter_elem in E as [Hy Hf].
    f_equal. by apply (NoDup_fmap_elem_inj f l).
  - rewrite head_filter_None in E. by destruct (E x Hx).
Qed.

Lemma insertItem_rows t it :
  ∃ new, rows (insertItem t it).1 = rows t ++ new ∧
         serial (insertItem t it).1 = serial t + 1.
Proof.
  unfold insertItem. repeat case_decide; simpl.
  - exists []. by rewrite app_nil_r.
  - exists []. by rewrite app_nil_r.
  - by eexists.
Qed.

Lemma insertItem_error t it :
  (insertItem t it).2 = None ↔ 0 < PubDate it.
Proof.
  unfold insertItem. repeat case_decide; simpl; split; (done || lia).
Qed.

Lemma insertItem_link t it :
  0 < PubDate it → Link it ∈ Link <$> rows (insertItem t it).1.
Proof.
  intros Hp. unfold insertItem. rewrite decide_False by lia.
  case_decide; simpl; [done|].
  rewrite fmap_app. apply elem_of_app. right. simpl. left.
Qed.

Lemma insertItem_wf t it : wf_table t → wf_table (insertItem t it).1.
Proof.
  intros (Hl & Hi & Hall). unfold insertItem, wf_table.
  assert (Forall (λ r, Id r ≤ serial t + 1 ∧ 0 < PubDate r) (rows t)) as Hall'.
  { eapply Forall_impl; [done|]. simpl. lia. }
  repeat case_decide; simpl; try done.
  rewrite !fmap_app. simpl. repeat split.
  - apply NoDup_app. repeat split; [done| |apply NoDup_singleton].
    intros l Hin Hin'. apply list_elem_of_singleton in Hin' as ->. done.
  - apply NoDup_app. repeat split; [done| |apply NoDup_singleton].
    intros i Hin Hin'. apply list_elem_of_singleton in Hin' as ->.
    apply list_elem_of_fmap in Hin as (r & Hr & Hin).
    rewrite Forall_forall in Hall. apply Hall in Hin. lia.
  - apply Forall_app. split; [done|].
    apply Forall_singleton. simpl. lia.
Qed.

Lemma insertAll_error t items :
  (insertAll t items).2 = None ↔ Forall (λ it, 0 < PubDate it) items.
Proof.
  revert t. induction items as [|it items IH]; intros t; simpl.
  { split; [by constructor|done]. }
  pose proof (insertItem_error t it) as He.
  destruct (insertItem t it) as [t' [e|]]; simpl in *.
  - split; [done|]. intros H. apply Forall_cons in H as [H _].
    by apply He in H.
  - rewrite IH, Forall_cons. tauto.
Qed.

Lemma insertAll_rows t items :
  ∃ new, rows (insertAll t items).1 = rows t ++ new.
Proof.
  revert t. induction items as [|it items IH]; intros t; simpl.
  { exists []. by rewrite app_nil_r. }
  destruct (insertItem_rows t it) as (n1 & H1 & _).
  destruct (insertItem t it) as [t' [e|]]; simpl in *; [by eexists|].
  destruct (IH t') as [n2 H2]. exists (n1 ++ n2).
  by rewrite H2, H1, app_assoc.
Qed.

Lemma insertAll_wf t items : wf_table t → wf_table (insertAll t items).1.
Proof.
  revert t. induction items as [|it items IH]; intros t Hwf; simpl; [done|].
  pose proof (insertItem_wf t it Hwf) as Hwf'.
  destruct (insertItem t it) as [t' [e|]]; simpl in *; [done|].
  by apply IH.
Qed.

Lemma insertAll_links t items it :
  (insertAll t items).2 = None → it ∈ items →
  Link it ∈ Link <$> rows (insertAll t items).1.
Proof.
  revert t. induction items as [|x items IH]; intros t Hok Hin; simpl in *.
  { by apply elem_of_nil in Hin. }
  pose proof (insertItem_error t x) as He.
  pose proof (insertItem_link t x) as Hl.
  destruct (insertItem t x) as [t' [e|]]; simpl in *; [done|].
  apply elem_of_cons in Hin as [->|Hin]; [|by apply IH].
  destruct (insertAll_rows t' items) as [new ->].
  rewrite fmap_app. apply elem_of_app. left. apply Hl. by apply He.
Qed.

(** Queueing items whose links are all stored changes no row and draws
    one sequence value per item. *)
Lemma insertAll_known t items :
  Forall (λ it, 0 < PubDate it ∧ Link it ∈ Link <$> rows t) items →
  insertAll t items =
    (mkTable (rows t) (serial t + Z.of_nat (length items)), None).
Proof.
  revert t. induction items as [|it items IH]; intros t H; simpl.
  { destruct t; simpl. by rewrite Z.add_0_r. }
  apply Forall_cons in H as [[Hp Hl] H]. unfold insertItem.
  rewrite decide_False by lia. rewrite decide_True by done.
  rewrite IH by done. simpl. do 2 f_equal. lia.
Qed.


(** [AddItems] keeps the constraints of the schema: links and ids stay
    unique, every id was drawn from the sequence, every date is
    positive. *)
Theorem AddItems_wf (t : table) (items : list Storage.Item) :
  wf_table t → wf_table (AddItems t items).1.
Proof.
  intros Hwf. unfold AddItems, addItemsByBatch.
  pose proof (insertAll_wf t items Hwf) as Hwf'.
  destruct (insertAll_rows t items) as [new Hrows].
  destruct (insertAll t items) as [t' [e|]] eqn:E; simpl in *; [|done].
  destruct Hwf as (Hl & Hi & Hall), Hwf' as (_ & _ & Hall').
  repeat split; simpl; [done..|].
  rewrite Hrows in Hall'. by apply Forall_app in Hall' as [? _].
Qed.

Lemma AddItems_wf_witness :
  wf_table (AddItems emptyTable [testItem1; testItem2; testItem1]).1.
Proof.
  apply AddItems_wf. unfold wf_table, emptyTable. simpl.
  repeat split; constructor.
Defined.

(** After a successful [AddItems] every item of the batch is found by
    [ItemByLink] under its link, with a positive date; the rows stored
    before are kept in place, and for a link that was stored before the
    row found is the old one (ON CONFLICT DO NOTHING: the new title,
    description and date are dropped). *)
Theorem AddItems_ItemByLink (t t' : table) (items : list Storage.Item) :
  wf_table t → AddItems t items = (t', None) →
  (∃ new, rows t' = rows t ++ new) ∧
  ∀ it, it ∈ items →
    ∃ r, ItemByLink t' (Link it) = (r, None) ∧ r ∈ rows t' ∧
         Link r = Link it ∧ 0 < PubDate r ∧
         ∀ r0, r0 ∈ rows t → Link r0 = Link it → r = r0.
Proof.
  intros Hwf Hadd. unfold AddItems, addItemsByBatch in Hadd.
  pose proof (insertAll_wf t items Hwf) as Hwf'.
  pose proof (insertAll_rows t items) as [new Hrows].
  pose proof (insertAll_links t items) as Hlinks.
  destruct (insertAll t items) as [t1 [e|]]; simplify_eq/=.
  split; [by eexists|]. intros it Hin.
  apply Hlinks in Hin; [|done].
  apply list_elem_of_fmap in Hin as (r & Hr & Hin).
  destruct Hwf' as (Hnd & _ & Hall).
  exists r. unfold ItemByLink. rewrite Hr.
  rewrite (head_filter_key Link) by done.
  rewrite Forall_forall in Hall. repeat split; [done|by apply Hall|].
  intros r0 Hr0 Hl0. apply (NoDup_fmap_elem_inj Link (rows t')); [done..| |].
  - rewrite Hrows. apply elem_of_app. by left.
  - congruence.
Qed.

Lemma AddItems_ItemByLink_witness :
  ∃ r, ItemByLink (AddItems emptyTable [testItem1; testItem2]).1
         (Link testItem2) = (r, None) ∧
       Link r = Link testItem2.
Proof.
  destruct (AddItems_ItemByLink emptyTable
              (AddItems emptyTable [testItem1; testItem2]).1
              [testItem1; testItem2]) as [_ H].
  - unfold wf_table, emptyTable. simpl. repeat split; constructor.
  - reflexivity.
  - destruct (H testItem2) as (r & Hr & _ & Hl & _).
    + right. left.
    + by exists r.
Defined.

(** Adding a batch again stores nothing new, yet every item of it draws
    a value from the id sequence: the ids of rows stored later skip
    them. *)
Theorem AddItems_again (t t' : table) (items : list Storage.Item) :
  AddItems t items = (t', None) →
  AddItems t' items =
    (mkTable (rows t') (serial t' + Z.of_nat (length items)), None).
Proof.
  intros Hadd. unfold AddItems, addItemsByBatch in *.
  pose proof (insertAll_error t items) as He.
  pose proof (insertAll_links t items) as Hlinks.
  destruct (insertAll t items) as [t1 [e|]]; simplify_eq/=.
  rewrite insertAll_known; [done|].
  apply Forall_forall. intros it Hin. split.
  - destruct He as [He _]. specialize (He eq_refl).
    rewrite Forall_forall in He. by apply He.
  - by apply Hlinks.
Qed.

Lemma AddItems_again_witness :
  AddItems (AddItems emptyTable [testItem1; testItem2]).1
           [testItem1; testItem2] =
    (mkTable (rows (AddItems emptyTable [testItem1; testItem2]).1) 4, None).
Proof. apply (AddItems_again emptyTable). reflexivity. Defined.

(** [AddItem] stores what [AddItems] stores for a batch of that one item,
    with the same error. *)
Theorem AddItem_AddItems (t : table) (it : Storage.Item) :
  rows (AddItem t it).1 = rows (AddItems t [it]).1 ∧
  serial (AddItem t it).1 = serial (AddItems t [it]).1 ∧
  (AddItem t it).2 = (AddItems t [it]).2.
Proof.
  unfold AddItem, AddItems, addItemsByBatch. simpl.
  unfold insertItem. repeat case_decide; done.
Qed.

(** GET /news/{id} over the table: a stored id is answered with 200 and
    its row, any other id with 404. *)
Theorem itemHandler_table (ParseInt : string → option Z) (t : table)
    (s : string) (id : Z) :
  wf_table t → ParseInt s = Some id →
  (∀ r, r ∈ rows t → Id r = id →
     NewsAPI.itemHandler ParseInt (Postgres.Item (queryById t)) s =
       (200, NewsAPI.JSONItem r)) ∧
  (id ∉ Id <$> rows t →
     NewsAPI.itemHandler ParseInt (Postgres.Item (queryById t)) s =
       (404, NewsAPI.JSONString "not found")).
Proof.
  intros (_ & Hnd & _) Hs. unfold NewsAPI.itemHandler, Postgres.Item, queryById.
  rewrite Hs. split.
  - intros r Hr <-. by rewrite (head_filter_key Id).
  - intros Hid.
    assert (head (filter (λ r, Id r = id) (rows t)) = None) as ->; [|done].
    apply head_filter_None. intros r Hr <-. apply Hid.
    apply list_elem_of_fmap. by exists r.
Qed.

Lemma itemHandler_table_witness :
  NewsAPI.itemHandler GoLib.Atoi
    (Postgres.Item
       (queryById (AddItems emptyTable [testItem1; testItem2]).1)) "2" =
    (200, NewsAPI.JSONItem testItem2).
Proof.
  refine (proj1 (itemHandler_table GoLib.Atoi
            (AddItems emptyTable [testItem1; testItem2]).1 "2" 2 _ _)
            testItem2 _ _).
  - unfold wf_table. simpl. repeat split; repeat constructor; simpl;
      try lia; rewrite ?elem_of_cons, ?elem_of_nil; intros H;
      repeat destruct H as [H|H]; try done.
  - reflexivity.
  - right. left.
  - reflexivity.
Defined.

End StoreFacts.

(** * The comments store *)
Module CommentsMore.
Import Comments CommentsRead StoreFacts.

Lemma nextId_gt (ids : list Z) (x : Z) : x ∈ ids → x < nextId ids.
Proof.
  unfold nextId. induction ids as [|y ids IH]; intros Hin; simpl.
  { by apply elem_of_nil in Hin. }
  apply elem_of_cons in Hin as [->|Hin]; [lia|].
  specialize (IH Hin). lia.
Qed.

Lemma nextId_pos (ids : list Z) : 0 < nextId ids.
Proof. unfold nextId. induction ids; simpl; lia. Qed.

Lemma nextId_fresh (ids : list Z) : nextId ids ∉ ids.
Proof. intros H. apply nextId_gt in H. lia. Qed.

Lemma newsIdOf_None d id :
  newsIdOf d id = None ↔ id ∉ ID <$> comments d.
Proof.
  unfold newsIdOf. rewrite fmap_None, head_filter_None. split.
  - intros H Hin. apply list_elem_of_fmap in Hin as (r & -> & Hr).
    by apply (H r).
  - intros H r Hr <-. apply H. apply list_elem_of_fmap. by exists r.
Qed.

(** What [createAuthor] leaves alone. *)
Lemma createAuthor_fields d c :
  comments (createAuthor d c).1 = comments d ∧
  ID (createAuthor d c).2 = ID c ∧
  NewsID (createAuthor d c).2 = NewsID c ∧
  ReplyID (createAuthor d c).2 = ReplyID c ∧
  PostedAt (createAuthor d c).2 = PostedAt c ∧
  Text (createAuthor d c).2 = Text c.
Proof. unfold createAuthor. by repeat case_decide. Qed.

(** What [createAuthor] does to the authors. *)
Lemma createAuthor_authors d c :
  let aid := AuthorID (author (createAuthor d c).2) in
  (∃ new, authors (createAuthor d c).1 = authors d ++ new ∧
          (new = [] ∨ new = [mkAuthor aid (Name (author c))] ∧
                      aid ∉ AuthorID <$> authors d)) ∧
  aid ∈ AuthorID <$> authors (createAuthor d c).1 ∧
  (AuthorID (author c) ≠ 0 → aid = AuthorID (author c)) ∧
  (AuthorID (author c) = 0 → aid = nextId (AuthorID <$> authors d)).
Proof.
  unfold createAuthor. repeat case_decide; simpl; repeat split; try done.
  - eexists. split; [done|]. right. split; [done|]. apply nextId_fresh.
  - rewrite fmap_app. apply elem_of_app. right. simpl. left.
  - exists []. rewrite app_nil_r. auto.
  - exists [author c]. split; [done|]. right. by destruct (author c).
  - rewrite fmap_app. apply elem_of_app. right. simpl. left.
Qed.

(** The shape of a successful [Create]. *)
Lemma Create_inv d c d' id :
  Create d c = (d', (id, None)) →
  let d1 := (createAuthor d c).1 in
  let aid := AuthorID (author (createAuthor d c).2) in
  ∃ news,
    0 < PostedAt c ∧ id = nextId (ID <$> comments d) ∧
    (if decide (NewsID c = 0 ∧ ReplyID c ≠ 0)
     then newsIdOf d (ReplyID c) = Some news else news = NewsID c) ∧
    d' = mkDb (authors d1)
           (comments d ++
              [mkComment id news (ReplyID c) (PostedAt c) (Text c)
                 (mkAuthor aid
                    (default "" (Name <$> head
                       (filter (λ a, AuthorID a = aid) (authors d1)))))]).
Proof.
  unfold Create.
  destruct (createAuthor_fields d c) as (Hc & _ & Hn & Hr & Hp & Ht).
  destruct (createAuthor d c) as [d1 c1]; simpl in *.
  unfold createComment, createComment_stmt, execInsert, newsIdOf.
  rewrite Hn, Hr, Hp, Ht, Hc.
  case_decide; simpl.
  - unfold newsIdOf.
    destruct (head (filter (λ r, ID r = ReplyID c) (comments d)))
      as [r|]; simpl; [|done].
    case_decide; [|done]. intros ?; simplify_eq. by exists (NewsID r).
  - case_decide; [|done]. intros ?; simplify_eq. by exists (NewsID c).
Qed.

(** [Create] succeeds exactly when the timestamp is positive and, for a
    reply sent without a news id, the comment replied to is stored. *)
Theorem Create_ok_iff (d : db) (c : Comment) :
  (Create d c).2.2 = None ↔
  0 < PostedAt c ∧
  (NewsID c = 0 → ReplyID c ≠ 0 → ReplyID c ∈ ID <$> comments d).
Proof.
  unfold Create.
  destruct (createAuthor_fields d c) as (Hc & _ & Hn & Hr & Hp & Ht).
  destruct (createAuthor d c) as [d1 c1]; simpl in *.
  unfold createComment, createComment_stmt, execInsert.
  rewrite Hn, Hr, Hp, Ht.
  pose proof (newsIdOf_None d (ReplyID c)) as Hnone.
  case_decide as Hd; simpl.
  - assert (newsIdOf d1 (ReplyID c) = newsIdOf d (ReplyID c)) as ->
      by (unfold newsIdOf; by rewrite Hc).
    destruct (newsIdOf d (ReplyID c)) as [news|]; simpl.
    + assert (ReplyID c ∈ ID <$> comments d) as Hin.
      { destruct (decide (ReplyID c ∈ ID <$> comments d)); [done|].
        by apply Hnone in n. }
      case_decide; simpl; split; try done; intros [? _]; lia.
    + split; [done|]. intros [_ H]. destruct Hd as [H0 Hne].
      specialize (H H0 Hne). by apply Hnone in H.
  - case_decide; simpl; split; try done.
    + intros _. split; [done|]. intros H0 Hne. tauto.
    + intros [? _]. lia.
Qed.


Lemma Author_eta (a : Author) : mkAuthor (AuthorID a) (Name a) = a.
Proof. by destruct a. Qed.

(** The author a stored id stands for. *)
Lemma author_lookup (as_ : list Author) (aid : Z) :
  NoDup (AuthorID <$> as_) → aid ∈ AuthorID <$> as_ →
  ∃ a, a ∈ as_ ∧ AuthorID a = aid ∧
       head (filter (λ a, AuthorID a = aid) as_) = Some a.
Proof.
  intros Hnd Hin. apply list_elem_of_fmap in Hin as (a & -> & Ha).
  exists a. repeat split; [done|]. by apply (head_filter_key AuthorID).
Qed.

Lemma Create_keeps_wf (d : db) (c : Comment) :
  wf_db d → 0 ≤ AuthorID (author c) → wf_db (Create d c).1.
Proof.
  intros Hwf Hpos.
  destruct (Create d c) as [d' [id [e|]]] eqn:E.
  { unfold Create in E. destruct (createAuthor d c) as [d1 c1].
    destruct (createComment d1 c1) as [[d2 id2]|e2]; simplify_eq/=. done. }
  apply Create_inv in E as (news & Hp & -> & _ & ->). simpl.
  destruct Hwf as (Hids & Haids & Hauth & Hidpos & Haidpos).
  destruct (createAuthor_authors d c) as ((new & Hnew & Hcase) & Hin & Hne & H0).
  simpl in *.
  set (aid := AuthorID (author (createAuthor d c).2)) in *.
  set (d1 := (createAuthor d c).1) in *.
  assert (NoDup (AuthorID <$> authors d1)) as Haids1.
  { rewrite Hnew. destruct Hcase as [->|[-> Hfresh]].
    - by rewrite app_nil_r.
    - rewrite fmap_app. apply NoDup_app. repeat split; [done| |].
      + intros x Hx Hx'. simpl in Hx'.
        apply list_elem_of_singleton in Hx' as ->. done.
      + simpl. apply NoDup_singleton. }
  destruct (author_lookup (authors d1) aid Haids1 Hin) as (a & Ha & Haid & Hhd).
  unfold wf_db. simpl. rewrite Hhd. simpl. rewrite <- Haid, Author_eta.
  repeat split.
  - rewrite fmap_app. apply NoDup_app. repeat split; [done| |].
    + intros x Hx Hx'. simpl in Hx'.
      apply list_elem_of_singleton in Hx' as ->.
      by apply nextId_fresh in Hx.
    + simpl. apply NoDup_singleton.
  - done.
  - apply Forall_app. split.
    + eapply Forall_impl; [exact Hauth|]. simpl. intros x Hx.
      rewrite Hnew. apply elem_of_app. by left.
    + by apply Forall_singleton.
  - apply Forall_app. split; [done|]. apply Forall_singleton. simpl.
    apply nextId_pos.
  - rewrite Hnew. apply Forall_app. split; [done|].
    destruct Hcase as [->|[-> _]]; [constructor|].
    apply Forall_singleton. simpl.
    destruct (decide (AuthorID (author c) = 0)) as [Hz|Hnz].
    + rewrite (H0 Hz). apply nextId_pos.
    + rewrite (Hne Hnz). lia.
Qed.

(** [Create] keeps the constraints of the schema, given an author id
    that is not negative: comment ids and author ids stay unique and
    positive, and every comment's author is stored. *)
Theorem Create_wf (d : db) (c : Comment) :
  wf_db d → 0 ≤ AuthorID (author c) → wf_db (Create d c).1.
Proof. apply Create_keeps_wf. Qed.

Lemma Create_wf_witness : wf_db (Create testDb testcom4).1.
Proof.
  apply Create_wf.
  - unfold wf_db, testDb. simpl.
    repeat split; repeat constructor; simpl; try lia;
      rewrite ?elem_of_cons, ?elem_of_nil; intros H;
      repeat destruct H as [H|H]; done.
  - simpl. lia.
Defined.

Lemma joinAuthor_stored d c :
  NoDup (AuthorID <$> authors d) → author c ∈ authors d →
  joinAuthor d c = Some c.
Proof.
  intros Hnd Hin. unfold joinAuthor.
  rewrite (head_filter_key AuthorID) by done. simpl. by destruct c.
Qed.

(** Under the constraints of the schema the join of [Read] loses no
    comment: [Read] returns the comments of the news item as stored. *)
Lemma Read_wf d n :
  wf_db d → (Read d n).1 = filter (λ c, NewsID c = n) (comments d).
Proof.
  intros (_ & Hnd & Hauth & _). unfold Read.
  assert (omap (joinAuthor d) (filter (λ c, NewsID c = n) (comments d)) =
          filter (λ c, NewsID c = n) (comments d)) as ->.
  { assert (Forall (λ c, author c ∈ authors d)
                   (filter (λ c, NewsID c = n) (comments d))) as H.
    { apply Forall_forall. intros x Hx.
      apply list_elem_of_filter in Hx as [_ Hx].
      rewrite Forall_forall in Hauth. by apply Hauth. }
    induction H as [|x l Hx _ IH]; [done|]. csimpl.
    rewrite joinAuthor_stored by done. by rewrite IH. }
  case_decide as Hlen; simpl; [|done].
  by destruct (filter _ _).
Qed.

(** Round trip: the comment [Create] stores is the last one [Read] returns
    for its news item, under the id [Create] reported, which no stored
    comment had; the text, the reply id and the timestamp are the posted
    ones, the news id too unless it was derived from the comment replied
    to.  An author whose id is known keeps the stored name (ON CONFLICT DO
    NOTHING), a new one gets the posted name.  The comments of the other
    news items read as before. *)
Theorem Create_Read (d d' : db) (c : Comment) (id : Z) :
  wf_db d → 0 ≤ AuthorID (author c) → Create d c = (d', (id, None)) →
  (id ∉ ID <$> comments d) ∧
  (∃ stored,
    ID stored = id ∧ ReplyID stored = ReplyID c ∧
    PostedAt stored = PostedAt c ∧ Text stored = Text c ∧
    (NewsID c ≠ 0 ∨ ReplyID c = 0 → NewsID stored = NewsID c) ∧
    (NewsID c = 0 → ReplyID c ≠ 0 →
       newsIdOf d (ReplyID c) = Some (NewsID stored)) ∧
    (∀ a, a ∈ authors d → AuthorID a = AuthorID (author c) →
          author stored = a) ∧
    (AuthorID (author c) ∉ AuthorID <$> authors d →
       Name (author stored) = Name (author c)) ∧
    ∀ n, (Read d' n).1 =
           (Read d n).1 ++ (if decide (NewsID stored = n) then [stored] else [])).
Proof.
  intros Hwf Hpos Hc.
  pose proof (Create_keeps_wf d c Hwf Hpos) as Hwf'.
  rewrite Hc in Hwf'. simpl in Hwf'.
  apply Create_inv in Hc as (news & Hp & -> & Hnews & ->). simpl in *.
  split; [apply nextId_fresh|].
  destruct (createAuthor_authors d c) as ((new & Hnew & Hcase) & Hin & Hne & H0).
  simpl in *.
  set (aid := AuthorID (author (createAuthor d c).2)) in *.
  set (d1 := (createAuthor d c).1) in *.
  destruct Hwf as (Hids & Haids & Hauth & Hidpos & Haidpos).
  pose proof Hwf' as (_ & Haids1 & _). simpl in Haids1.
  destruct (author_lookup (authors d1) aid Haids1 Hin) as (a & Ha & Haid & Hhd).
  rewrite Hhd in *. simpl in *.
  match type of Hwf' with wf_db (mkDb _ (_ ++ [?x])) => exists x end.
  do 4 (split; [reflexivity|]).
  split; [|split; [|split; [|split]]]; simpl.
  - intros Hor. case_decide as Hd; [|done]. destruct Hd as [? ?].
    by destruct Hor.
  - intros Hz Hr. by rewrite decide_True in Hnews by done.
  - intros a0 Ha0 Haid0.
    assert (AuthorID (author c) ≠ 0) as Hnz.
    { rewrite Forall_forall in Haidpos. apply Haidpos in Ha0. lia. }
    rewrite <- Haid, Author_eta.
    apply (NoDup_fmap_elem_inj AuthorID (authors d1)); [done..| |].
    + rewrite Hnew. apply elem_of_app. by left.
    + rewrite Haid, (Hne Hnz). done.
  - intros Hfresh.
    destruct Hcase as [->|[-> Hf]].
    + rewrite app_nil_r in Hnew. exfalso.
      assert (aid ∈ AuthorID <$> authors d) as Hin' by by rewrite <- Hnew.
      destruct (decide (AuthorID (author c) = 0)) as [Hz|Hnz].
      * rewrite (H0 Hz) in Hin'. by apply nextId_fresh in Hin'.
      * rewrite (Hne Hnz) in Hin'. done.
    + rewrite Hnew in Ha. apply elem_of_app in Ha as [Ha|Ha].
      * exfalso. apply Hf.
        rewrite <- Haid. apply list_elem_of_fmap. by exists a.
      * apply list_elem_of_singleton in Ha. by rewrite Ha.
  - intros n. rewrite (Read_wf _ n Hwf'). simpl.
    rewrite (Read_wf d n) by done.
    rewrite filter_app. f_equal.
Qed.

Lemma Create_Read_witness : 4 ∉ ID <$> comments testDb.
Proof.
  refine (proj1 (Create_Read testDb (Create testDb testcom4).1 testcom4 4
                   _ _ _)).
  - unfold wf_db, testDb. simpl.
    repeat split; repeat constructor; simpl; try lia;
      rewrite ?elem_of_cons, ?elem_of_nil; intros H;
      repeat destruct H as [H|H]; done.
  - simpl. lia.
  - reflexivity.
Defined.

(** GET /comments over the sqlite store never answers 500: without a
    [news-id], or with one that is no integer, the answer is 400;
    otherwise it is 200 with what [Read] returned, an empty list when the
    news item has no comments. *)
Theorem handleCommentRead_sqlite (ParseInt : string → option Z) (d : db)
    (s : string) :
  handleCommentRead ParseInt (Read d) s =
    if decide (s = "") then (400, JSONError Comments.ErrNoNewsID)
    else match ParseInt s with
         | None => (400, JSONError ErrBadInput)
         | Some id => (200, JSONComments (Read d id).1)
         end.
Proof.
  unfold handleCommentRead. case_decide; [done|].
  destruct (ParseInt s) as [id|]; [|done].
  unfold Read. by case_decide.
Qed.

End CommentsMore.

(** * Moderation and the gateway *)
Module GatewayFacts.
Import Comments.

Lemma append_cons (a : ascii) (s t : string) :
  String a s +:+ t = String a (s +:+ t).
Proof. reflexivity. Qed.

Lemma prefix_append (sub s : string) :
  String.prefix sub s = true ↔ ∃ post, s = sub +:+ post.
Proof.
  revert s. induction sub as [|a sub IH]; intros s.
  { split; [|by destruct s]. intros _. by exists s. }
  destruct s as [|b s]; simpl.
  { split; [done|]. by intros [post ?]. }
  destruct (Ascii.ascii_dec a b) as [<-|Hne].
  - rewrite IH. split; intros [post Hp]; exists post.
    + by rewrite append_cons, Hp.
    + rewrite append_cons in Hp. by simplify_eq.
  - split; [done|]. intros [post Hp]. rewrite append_cons in Hp.
    by simplify_eq.
Qed.

(** [contains] is the substring test. *)
Lemma contains_append (s sub : string) :
  Moderation.contains s sub = true ↔ ∃ pre post, s = pre +:+ sub +:+ post.
Proof.
  induction s as [|a s IH].
  - cbn [Moderation.contains]. rewrite orb_false_r, prefix_append. split.
    + intros [post Hp]. by exists "", post.
    + intros (pre & post & Hp). destruct pre; [|done]. by exists post.
  - cbn [Moderation.contains]. rewrite orb_true_iff, IH, prefix_append. split.
    + intros [[post Hp]|(pre & post & Hp)].
      * by exists "", post.
      * exists (String a pre), post. by rewrite append_cons, Hp.
    + intros (pre & post & Hp). destruct pre as [|b pre].
      * left. by exists post.
      * right. rewrite append_cons in Hp. simplify_eq. by exists pre, post.
Qed.

(** A comment is banned exactly when its text has one of the three
    words of [swearing] as a substring, anywhere and in this spelling:
    the test is case-sensitive and knows no word boundaries. *)
Theorem Banned_iff (c : Comment) :
  Moderation.Banned c = true ↔
  ∃ w pre post, w ∈ Moderation.swearing ∧ Text c = pre +:+ w +:+ post.
Proof.
  unfold Moderation.Banned. rewrite existsb_exists. split.
  - intros (w & Hin & Hc). apply contains_append in Hc as (pre & post & Hc).
    exists w, pre, post. split; [by apply list_elem_of_In|done].
  - intros (w & pre & post & Hin & Hc). exists w.
    split; [by apply list_elem_of_In|]. apply contains_append. by exists pre, post.
Qed.

(** A comment posted through the gateway is stored only if it passes
    moderation: the answer is 201 exactly when the body decodes, the text
    is not banned, the comment carries a news id and the store accepts it;
    then the store is the one [Create] leaves.  With any other answer the
    store is unchanged; a banned or undecodable comment is answered by the
    moderation service's 400 and never reaches the comments service. *)
Theorem postComment_201 (d : db) (decoded : Comment + string) :
  ((Gateway.postComment d decoded).2.1 = 201 ↔
   ∃ c, decoded = inl c ∧ Moderation.Banned c = false ∧ NewsID c ≠ 0 ∧
        (Create d c).2.2 = None ∧
        Gateway.postComment d decoded =
          ((Create d c).1,
           (201, Gateway.FromComments (JSONId (Create d c).2.1)))) ∧
  ((Gateway.postComment d decoded).2.1 ≠ 201 →
   (Gateway.postComment d decoded).1 = d) ∧
  (match decoded with
   | inl c => Moderation.Banned c = true
   | inr _ => True
   end →
   ∃ b, Gateway.postComment d decoded = (d, (400, Gateway.FromCheck b))).
Proof.
  unfold Gateway.postComment, Gateway.handleCommentCreate,
    Moderation.handleCommentCheck, handleCommentCreate.
  destruct decoded as [c|e]; simpl.
  2: { repeat split; try done;
         [by intros (c & ? & _); simplify_eq|intros _; by eexists]. }
  destruct (Moderation.Banned c) eqn:Hb; simpl.
  { repeat split; try done;
      [intros (c' & ? & ? & _); simplify_eq; congruence
      |intros _; by eexists]. }
  destruct (decide (NewsID c = 0)) as [H0|Hne]; simpl.
  { repeat split; try done. intros (c' & ? & ? & ? & _); simplify_eq. }
  destruct (Create d c) as [d' [id [e|]]] eqn:E; simpl.
  - repeat split; try done. intros (c' & ? & ? & ? & He & _); simplify_eq.
    by rewrite E in He.
  - repeat split; try done. intros _. exists c. by rewrite E.
Qed.

End GatewayFacts.

Module RandFacts.
Import Gateway.

(** The test [i^1 == i+1] of [randStr] holds for the even [i]. *)
Lemma lxor_one (i : Z) : 0 ≤ i → Z.lxor i 1 = i + 1 ↔ Z.even i = true.
Proof.
  intros Hi. destruct i as [|p|p]; [done| |lia].
  destruct p as [p|p|].
  - assert (Z.lxor (Z.pos p~1) 1 = Z.pos p~0) as -> by reflexivity.
    split; [lia|done].
  - assert (Z.lxor (Z.pos p~0) 1 = Z.pos p~1) as -> by reflexivity.
    split; [done|lia].
  - done.
Qed.

Lemma even_of_nat (j : nat) : Z.even (Z.of_nat j) = Nat.even j.
Proof.
  enough (Z.even (Z.of_nat j) = Nat.even j ∧
          Z.even (Z.of_nat (S j)) = Nat.even (S j)) as [? _] by done.
  induction j as [|j [H1 H2]]; [done|]. split; [done|].
  replace (Z.of_nat (S (S j))) with (Z.of_nat j + 2) by lia.
  rewrite Z.even_add, H1. simpl. by destruct (Nat.even j).
Qed.

Lemma nums_digit (k : nat) :
  (k < String.length nums)%nat →
  ∃ a, runeAt nums k = Some a ∧ GoLib.is_digit a = true.
Proof.
  intros Hk. do 10 (destruct k as [|k]; [by eexists|]).
  simpl in Hk. lia.
Qed.

Lemma letters_letter (k : nat) :
  (k < String.length letters)%nat →
  ∃ a, runeAt letters k = Some a ∧ is_letter a = true.
Proof.
  intros Hk. do 52 (destruct k as [|k]; [by eexists|]).
  simpl in Hk. lia.
Qed.

Section oracle.
Variable intn : nat → nat → nat.
Hypothesis intn_lt : ∀ j b, (0 < b)%nat → (intn j b < b)%nat.

Lemma randStr_loop_shape (k : nat) (i : Z) :
  0 ≤ i →
  ∃ s, randStr_loop intn i k = Some s ∧ String.length s = k ∧
       ∀ j a, String.get j s = Some a →
              if Z.even (i + Z.of_nat j) then GoLib.is_digit a = true
              else is_letter a = true.
Proof.
  revert i. induction k as [|k IH]; intros i Hi.
  { exists EmptyString. repeat split. intros j a. by destruct j. }
  cbn [randStr_loop].
  destruct (IH (i + 1)) as (rest & -> & Hlen & Hrest); [lia|].
  pose proof (lxor_one i Hi) as Hx.
  case_decide as Hd.
  - destruct (nums_digit (intn (Z.to_nat i) (String.length nums)))
      as (a & -> & Ha); [apply intn_lt; simpl; lia|].
    simpl. eexists. split; [done|]. split; [simpl; by rewrite Hlen|].
    intros [|j] b Hb; simpl in Hb.
    + simplify_eq. rewrite Z.add_0_r. by rewrite (proj1 Hx Hd).
    + apply Hrest in Hb.
      by replace (i + Z.of_nat (S j)) with (i + 1 + Z.of_nat j) by lia.
  - destruct (letters_letter (intn (Z.to_nat i) (String.length letters)))
      as (a & -> & Ha); [apply intn_lt; simpl; lia|].
    simpl. eexists. split; [done|]. split; [simpl; by rewrite Hlen|].
    intros [|j] b Hb; simpl in Hb.
    + simplify_eq. rewrite Z.add_0_r.
      destruct (Z.even i); [|done]. by destruct Hd; apply Hx.
    + apply Hrest in Hb.
      by replace (i + Z.of_nat (S j)) with (i + 1 + Z.of_nat j) by lia.
Qed.
End oracle.

(** [randStr n] never indexes out of range and returns [n] characters
    (none for a negative [n]), a digit at every even position and an
    English letter at every odd one, whatever [rand.Intn] draws within
    its bound. *)
Theorem randStr_shape (intn : nat → nat → nat) (n : Z) :
  (∀ j b, (0 < b)%nat → (intn j b < b)%nat) →
  ∃ s, randStr intn n = Some s ∧ String.length s = Z.to_nat n ∧
       ∀ j a, String.get j s = Some a →
              if Nat.even j then GoLib.is_digit a = true
              else is_letter a = true.
Proof.
  intros Hintn. unfold randStr.
  destruct (randStr_loop_shape intn Hintn (Z.to_nat n) 0)
    as (s & Hs & Hlen & Hshape); [done|].
  exists s. repeat split; [done..|].
  intros j a Hj. specialize (Hshape j a Hj). rewrite Z.add_0_l in Hshape.
  by rewrite even_of_nat in Hshape.
Qed.

Lemma randStr_shape_witness :
  ∃ s, randStr (λ j b, j `mod` b)%nat 18 = Some s ∧
       String.length s = Z.to_nat 18 ∧
       ∀ j a, String.get j s = Some a →
              if Nat.even j then GoLib.is_digit a = true
              else is_letter a = true.
Proof.
  apply randStr_shape. intros j b Hb. apply Nat.mod_upper_bound. lia.
Defined.

(** The request id put into the context is never empty: the one of the
    query when there is one, 18 generated characters otherwise. *)
Theorem requestId_nonempty (intn : nat → nat → nat) (q : string) :
  (∀ j b, (0 < b)%nat → (intn j b < b)%nat) →
  ∃ rid, requestId intn q = Some rid ∧ rid ≠ "" ∧
         (q ≠ "" → rid = q) ∧ (q = "" → String.length rid = 18%nat).
Proof.
  intros Hintn. unfold requestId. case_decide as Hq.
  - destruct (randStr_loop_shape intn Hintn 18 0) as (s & Hs & Hlen & _);
      [done|].
    exists s. repeat split; [done| |done..].
    intros ->. done.
  - exists q. by repeat split.
Qed.

Lemma requestId_nonempty_witness :
  ∃ rid, requestId (λ j b, j `mod` b)%nat "" = Some rid ∧ rid ≠ "" ∧
         ("" ≠ "" → rid = "") ∧ ("" = "" → String.length rid = 18%nat).
Proof.
  apply requestId_nonempty. intros j b Hb. apply Nat.mod_upper_bound. lia.
Defined.

End RandFacts.

(** * GET /news, from the request to the statement *)
Module NewsAPIMore.
Import Storage Postgres PostgresStore PostgresFacts NewsAPI NewsAPIFacts.

(** The page of an accepted request: 1 when the parameter is absent, and
    then [Items] asks for LIMIT 10 and no OFFSET; the parsed number
    otherwise, which is not checked: page=0 or a negative page is
    accepted, and [Items] then sends the statement with no LIMIT at all. *)
Theorem parseQP_page (Atoi : string → option Z)
    (parse : string → string → Z + string)
    (params : gmap string (list string)) (f : Filter) :
  parseQP Atoi parse params = inl f →
  match params !! "page" with
  | None =>
      Page f = 1 ∧
      itemsStmt f =
        mkStatement (sql (itemsStmtOrdered f) +:+ " LIMIT $"
                       +:+ pretty (S (length (args (itemsStmtOrdered f)))))
                    (args (itemsStmtOrdered f) ++ [ArgInt 10])
  | Some qp =>
      ∃ v vs, qp = v :: vs ∧ Atoi v = Some (Page f) ∧
              (Page f < 1 → itemsStmt f = itemsStmtOrdered f)
  end.
Proof.
  intros H.
  assert (match params !! "page" with
          | None => Page f = 1
          | Some qp => ∃ v vs, qp = v :: vs ∧ Atoi v = Some (Page f)
          end) as Hpage.
  { unfold parseQP, andThen, first in H.
    repeat case_match; simplify_eq/=; eauto. }
  unfold itemsStmt. fold (itemsStmtOrdered f).
  unfold addLimitOffsetClause, calcLimitOffset, PageSize, placeholder.
  destruct (params !! "page") as [qp|].
  - destruct Hpage as (v & vs & -> & Hv). exists v, vs.
    do 2 (split; [done|]). intros Hlt. rewrite decide_True by done.
    destruct (decide (0 < 0)) as [?|_]; [lia|done].
  - split; [done|]. rewrite Hpage. simpl. reflexivity.
Qed.

Lemma parseQP_page_witness :
  ∃ f, parseQP GoLib.Atoi GoLib.timeParse {[ "page" := ["0"] ]} = inl f ∧
       itemsStmt f = itemsStmtOrdered f.
Proof.
  eexists. split; [reflexivity|].
  pose proof (parseQP_page GoLib.Atoi GoLib.timeParse {[ "page" := ["0"] ]}
                _ eq_refl) as H.
  rewrite lookup_singleton_eq in H. destruct H as (v & vs & _ & _ & H).
  apply H. vm_compute. reflexivity.
Defined.

Section epoch.
Variable Atoi : string → option Z.
Variable parse : string → string → Z + string.

End epoch.


End NewsAPIMore.

(** * Start-up: environment and database connection *)
Module CmdFacts.
Import Cmd.

Lemma envs_loop_spec (L : string → option string) (names : list string)
    (em : gmap string string) :
  match envs_loop L em names with
  | inl em' =>
      Forall (λ n, is_Some (L n)) names ∧
      ∀ k, em' !! k = if decide (k ∈ names) then L k else em !! k
  | inr (MustBeSet n) =>
      ∃ pre post, names = pre ++ n :: post ∧ L n = None ∧
                  Forall (λ n, is_Some (L n)) pre
  end.
Proof.
  revert em. induction names as [|env rest IH]; intros em;
    cbn [envs_loop].
  { split; [constructor|]. intros k. rewrite decide_False; [done|].
    apply not_elem_of_nil. }
  destruct (L env) as [v|] eqn:Hv.
  - specialize (IH (<[env := v]> em)).
    destruct (envs_loop L (<[env := v]> em) rest) as [em'|[n]].
    + destruct IH as [Hall Hem]. split.
      { constructor; [by rewrite Hv|done]. }
      intros k. rewrite Hem.
      destruct (decide (k ∈ rest)) as [Hin|Hnin].
      * rewrite decide_True; [done|by right].
      * destruct (decide (k = env)) as [->|Hne].
        -- rewrite lookup_insert_eq, decide_True; [done|by left].
        -- rewrite lookup_insert_ne by done. rewrite decide_False; [done|].
           intros Hin. by apply elem_of_cons in Hin as [?|?].
    + destruct IH as (pre & post & -> & Hn & Hpre).
      exists (env :: pre), post. repeat split; [done|].
      constructor; [by rewrite Hv|done].
  - exists [], rest. by repeat split.
Qed.

(** [envs] returns a map exactly when every named variable is set, and
    the map then holds the named variables with their values and nothing
    else; otherwise the error names the first variable of the list that
    is not set. *)
Theorem envs_spec (lookupEnv : string → option string)
    (names : list string) :
  match envs lookupEnv names with
  | inl em =>
      Forall (λ n, is_Some (lookupEnv n)) names ∧
      ∀ k, em !! k = if decide (k ∈ names) then lookupEnv k else None
  | inr (MustBeSet n) =>
      ∃ pre post, names = pre ++ n :: post ∧ lookupEnv n = None ∧
                  Forall (λ n, is_Some (lookupEnv n)) pre
  end.
Proof.
  unfold envs. pose proof (envs_loop_spec lookupEnv names ∅) as H.
  destruct (envs_loop lookupEnv ∅ names) as [em|[n]]; [|done].
  destruct H as [Hall Hem]. split; [done|]. intros k.
  rewrite Hem. by rewrite lookup_empty.
Qed.

Lemma connectDB_loop_spec {D} (new : nat → option D)
    (runFile : D → option string) (k i : nat) :
  match connectDB_loop new runFile i k with
  | inl db =>
      ∃ j, (i ≤ j < i + k)%nat ∧ new j = Some db ∧ runFile db = None ∧
           ∀ j', (i ≤ j' < j)%nat → new j' = None
  | inr e =>
      (e = ErrRetryExceeded ∧ ∀ j, (i ≤ j < i + k)%nat → new j = None) ∨
      ∃ j db, (i ≤ j < i + k)%nat ∧ new j = Some db ∧
              runFile db = Some e ∧
              ∀ j', (i ≤ j' < j)%nat → new j' = None
  end.
Proof.
  revert i. induction k as [|k IH]; intros i; simpl.
  { left. split; [done|]. intros j Hj. lia. }
  destruct (new i) as [db|] eqn:Hn.
  - destruct (runFile db) as [e|] eqn:Hr.
    + right. exists i, db. repeat split; [lia..|done|done|].
      intros j' Hj'. lia.
    + exists i. repeat split; [lia..|done|done|]. intros j' Hj'. lia.
  - specialize (IH (S i)).
    assert (∀ j j0, (S i ≤ j0 < S i + k)%nat →
                    (∀ j', (S i ≤ j' < j0)%nat → new j' = None) →
                    (i ≤ j < j0)%nat → new j = None) as Hext.
    { intros j j0 _ Hbefore Hj.
      destruct (decide (j = i)) as [->|Hne]; [done|]. apply Hbefore. lia. }
    destruct (connectDB_loop new runFile (S i) k) as [db|e].
    + destruct IH as (j & Hj & Hnew & Hrun & Hbefore).
      exists j. repeat split; [lia..|done|done|].
      intros j' Hj'. by apply (Hext j' j).
    + destruct IH as [[-> Hall]|(j & db & Hj & Hnew & Hrun & Hbefore)].
      * left. split; [done|]. intros j Hj.
        destruct (decide (j = i)) as [->|Hne]; [done|]. apply Hall. lia.
      * right. exists j, db. repeat split; [lia..|done|done|].
        intros j' Hj'. by apply (Hext j' j).
Qed.

(** [connectDB] makes at most [retries] attempts and stops at the first
    one that opens the database: the store returned is that attempt's,
    with the schema file run; an error of the schema file ends the loop
    at once with that error, without another attempt; only when every
    attempt fails to open (none is made for [retries] below 1) is the
    error [ErrRetryExceeded]. *)
Theorem connectDB_spec {D : Type} (new : nat → option D)
    (runFile : D → option string) (retries : Z) :
  match connectDB new runFile retries with
  | inl db =>
      ∃ j, Z.of_nat j < retries ∧ new j = Some db ∧ runFile db = None ∧
           ∀ j', (j' < j)%nat → new j' = None
  | inr e =>
      (e = ErrRetryExceeded ∧ ∀ j, Z.of_nat j < retries → new j = None) ∨
      ∃ j db, Z.of_nat j < retries ∧ new j = Some db ∧
              runFile db = Some e ∧ ∀ j', (j' < j)%nat → new j' = None
  end.
Proof.
  unfold connectDB.
  pose proof (connectDB_loop_spec new runFile (Z.to_nat retries) 0) as H.
  destruct (connectDB_loop new runFile 0 (Z.to_nat retries)) as [db|e].
  - destruct H as (j & Hj & Hnew & Hrun & Hbefore).
    exists j. repeat split; [lia|done|done|]. intros j' Hj'. apply Hbefore. lia.
  - destruct H as [[-> Hall]|(j & db & Hj & Hnew & Hrun & Hbefore)].
    + left. split; [done|]. intros j Hj. apply Hall. lia.
    + right. exists j, db. repeat split; [lia|done|done|].
      intros j' Hj'. apply Hbefore. lia.
Qed.

End CmdFacts.
